(** * Adaptive tiling search of the embedded places server

    A shallow embedding of [public/nodejs/index.js]: the tile traversal
    [adaptiveTilingSearch], the provider call [searchNearby], the
    [/api/places/adaptive] request handler, and the properties of the
    traversal (coverage geometry, call budget, subdivision rule,
    deduplication, failure handling, result ordering, metrics).

    JavaScript numbers are idealised as real numbers: arithmetic is exact and
    the special value NaN appears only where the handler tests for it
    ([isNaN] on the parsed coordinates).  Comparisons are the decidable
    comparisons of [R].

    Answers of the provider are taken as typed: the parsed body is [null],
    or a value whose [places] is missing or an array of place objects with
    fields of the expected kinds.  An answer with an entry that is no object,
    or with a field of another kind, raises a [TypeError] in the source (in
    the recording loop, where it is caught for the tile, or later while
    formatting); such answers are outside this model, and no statement below
    speaks about them. *)

From Stdlib Require Import Reals Lra List String Bool Arith Lia.
From Stdlib Require Import Sorting.Sorted Sorting.Permutation.
Import ListNotations.

Open Scope string_scope.
Open Scope list_scope.
Open Scope R_scope.

(** ** JavaScript values *)

(** A parsed number: [None] is NaN. *)
Definition jsnum : Type := option R.

(** Comparisons of numbers as booleans. *)
Definition Rgtb (x y : R) : bool := if Rgt_dec x y then true else false.
Definition Rgeb (x y : R) : bool := if Rge_dec x y then true else false.
Definition Reqb (x y : R) : bool := if Req_dec_T x y then true else false.

(** Truthiness of a string that may be [null] or [undefined]. *)
Definition truthy (s : option string) : bool :=
  match s with
  | None => false
  | Some s => negb (String.eqb s "")
  end.

(** [s || d] on such a string. *)
Definition str_or (s : option string) (d : string) : string :=
  if truthy s then match s with Some v => v | None => d end else d.

(** [x || 0] on a number that may be absent. *)
Definition num_or_0 (x : option R) : R :=
  match x with Some r => r | None => 0 end.

(** ** Insertion-ordered maps

    A JavaScript [Map] with string keys: [set] on a present key replaces the
    value in place, on an absent key appends; [values()] iterates in
    insertion order. *)

Module JsMap.
Section Ops.
Context {V : Type}.

Definition t : Type := list (string * V).

Definition empty : t := [].

Fixpoint get (m : t) (k : string) : option V :=
  match m with
  | [] => None
  | (k', v) :: m' => if String.eqb k' k then Some v else get m' k
  end.

Definition has (m : t) (k : string) : bool :=
  match get m k with Some _ => true | None => false end.

Fixpoint set (m : t) (k : string) (v : V) : t :=
  match m with
  | [] => [(k, v)]
  | (k', v') :: m' =>
      if String.eqb k' k then (k', v) :: m' else (k', v') :: set m' k v
  end.

Definition keys (m : t) : list string := map fst m.
Definition values (m : t) : list V := map snd m.
Definition size (m : t) : nat := List.length m.
End Ops.
Arguments t : clear implicits.
End JsMap.

(** ** Tiles and the coverage geometry *)

Definition MIN_RADIUS : R := 500.
Definition MAX_DEPTH : nat := 5.
Definition MAX_API_CALLS : nat := 200.
Definition PROVIDER_CAPACITY : nat := 20.
Definition OVERLAP_FACTOR : R := 0.7.
Definition METERS_PER_DEGREE : R := 111320.

Record tile : Type := mkTile {
  lat : R;
  lng : R;
  radius : R;
  depth : nat
}.

(** The four children pushed by the subdivision step, in push order, for an
    offset multiplier [factor]. *)
Definition children (factor : R) (t : tile) : list tile :=
  let childRadius := radius t / 2 in
  let offset := childRadius * factor / METERS_PER_DEGREE in
  let lngOffset := offset / cos (lat t * PI / 180) in
  [ mkTile (lat t + offset) (lng t - lngOffset) childRadius (depth t + 1);
    mkTile (lat t + offset) (lng t + lngOffset) childRadius (depth t + 1);
    mkTile (lat t - offset) (lng t - lngOffset) childRadius (depth t + 1);
    mkTile (lat t - offset) (lng t + lngOffset) childRadius (depth t + 1) ].

(** The subdivision of the source: the multiplier is the literal [0.7]. *)
Definition subdivide (t : tile) : list tile := children OVERLAP_FACTOR t.

(** Northward and eastward displacement in meters from a point to another,
    under the conversion the subdivision step uses: 111320 meters per degree
    of latitude, a degree of longitude shortened by the cosine of the
    latitude of the first point. *)
Definition north_meters (lat0 lat1 : R) : R :=
  (lat1 - lat0) * METERS_PER_DEGREE.

Definition east_meters (lat0 lng0 lng1 : R) : R :=
  (lng1 - lng0) * METERS_PER_DEGREE * cos (lat0 * PI / 180).

(** Distance in meters between the centers of two tiles under that
    conversion. *)
Definition center_distance (p c : tile) : R :=
  sqrt ((north_meters (lat p) (lat c))² + (east_meters (lat p) (lng p) (lng c))²).

(** A point at the center of [p] lies in the disc of [c]. *)
Definition covers_center_of (c p : tile) : Prop :=
  center_distance p c <= radius c.

(** A parent tile on the equator, two kilometers in radius. *)
Definition sample_parent : tile := mkTile 0 0 2000 0.

(** ** Places *)

Record latlng : Type := mkLatLng {
  latitude : R;
  longitude : R
}.

(** A place as the provider returns it; every field but the identity may be
    absent.  [displayName] stands for [displayName?.text] and
    [regularOpeningHours] for [regularOpeningHours?.weekdayDescriptions]. *)
Record raw_place : Type := mkRaw {
  id : string;
  displayName : option string;
  primaryType : option string;
  location : option latlng;
  formattedAddress : option string;
  rating : option R;
  userRatingCount : option R;
  regularOpeningHours : option (list string);
  googleMapsUri : option string
}.

(** The record stored in [seenPlaces]. *)
Record seen_place : Type := mkSeen {
  p_id : string;
  p_name : string;
  p_type : option string;
  p_location : option latlng;
  p_address : option string;
  p_rating : R;
  p_reviewCount : R;
  p_openingHours : list string;
  p_googleMapsUri : option string
}.

(** The object literal stored for a place seen for the first time. *)
Definition seen_entry (place : raw_place) : seen_place :=
  {| p_id := id place;
     p_name := str_or (displayName place) "Unknown";
     p_type := primaryType place;
     p_location := location place;
     p_address := formattedAddress place;
     p_rating := num_or_0 (rating place);
     p_reviewCount := num_or_0 (userRatingCount place);
     p_openingHours :=
       match regularOpeningHours place with Some l => l | None => [] end;
     p_googleMapsUri := googleMapsUri place |}.

(** One round of the [for (const place of places)] loop. *)
Definition record_place (seen : JsMap.t seen_place) (place : raw_place)
  : JsMap.t seen_place :=
  if negb (JsMap.has seen (id place))
  then JsMap.set seen (id place) (seen_entry place)
  else seen.

Definition record_places (places : list raw_place) (seen : JsMap.t seen_place)
  : JsMap.t seen_place :=
  fold_left record_place places seen.

(** The guard of the subdivision step. *)
Definition should_subdivide (places : list raw_place) (t : tile) : bool :=
  (PROVIDER_CAPACITY <=? List.length places)%nat
  && Rgtb (radius t) MIN_RADIUS
  && (depth t <? MAX_DEPTH)%nat.

(** ** Effects: exceptions over a world *)

Inductive outcome (A : Type) : Type :=
| Ok (a : A)
| Throw (msg : string).
Arguments Ok {A} a.
Arguments Throw {A} msg.

Definition M (W A : Type) : Type := W -> outcome A * W.

Definition ret {W A} (a : A) : M W A := fun w => (Ok a, w).
Definition throw {W A} (msg : string) : M W A := fun w => (Throw msg, w).

Definition bind {W A B} (m : M W A) (k : A -> M W B) : M W B :=
  fun w =>
    match m w with
    | (Ok a, w') => k a w'
    | (Throw e, w') => (Throw e, w')
    end.

(** [try { m } catch (err) { h err }]: effects of [m] before the throw stay. *)
Definition try_catch {W A} (m : M W A) (h : string -> M W A) : M W A :=
  fun w =>
    match m w with
    | (Ok a, w') => (Ok a, w')
    | (Throw e, w') => h e w'
    end.

Notation "x <- m ;; k" := (bind m (fun x => k))
  (at level 61, m at next level, right associativity).

(** ** The provider *)

(** The request of one nearby search: credential, body. *)
Record request : Type := mkRequest {
  req_key : string;
  req_types : list string;
  req_maxResultCount : nat;
  req_lat : R;
  req_lng : R;
  req_radius : R
}.

(** What the request resolves with: the parsed body is [null], or a value
    whose [places] property is an array or is missing. *)
Inductive response : Type :=
| RNull
| RObject (places : option (list raw_place)).

(** The entry of the rate limiter's store. *)
Record rate_entry : Type := mkRate {
  count : nat;
  windowStart : Z
}.

Definition RATE_LIMIT : nat := 100.
Definition WINDOW_MS : Z := 60 * 60 * 1000.

(** Registry-independent provider stubs, used to run the traversal. *)

(** Answers every request with an empty object. *)
Definition stub_empty (_ : request) (e : unit) : outcome response * unit :=
  (Ok (RObject None), e).

(** Rejects every request. *)
Definition stub_failing (_ : request) (e : unit) : outcome response * unit :=
  (Throw "Request timeout", e).

Definition stub_place (name : string) (r : R) : raw_place :=
  mkRaw name None None None None (Some r) None None None.

(** Answers every request with the same place ["x"], rated with the latitude
    of the queried center. *)
Definition stub_echo (req : request) (e : unit) : outcome response * unit :=
  (Ok (RObject (Some [stub_place "x" (req_lat req)])), e).

(** Answers every request with twenty places. *)
Definition stub_full (_ : request) (e : unit) : outcome response * unit :=
  (Ok (RObject (Some (repeat (stub_place "x" 5) 20))), e).

(** ** Result formatting and ordering *)

(** A place in response format. *)
Record formatted_place : Type := mkFormatted {
  f_name : string;
  f_address : string;
  f_location : latlng;
  f_rating : R;
  f_reviewCount : R;
  f_distance : R;
  f_openingHours : list string;
  f_googleMapsUrl : string;
  f_placeId : string;
  f_type : option string
}.

(** Answers every request with twenty-one places, one more than asked
    for. *)
Definition stub_over (_ : request) (e : unit) : outcome response * unit :=
  (Ok (RObject (Some (repeat (stub_place "x" 5) 21))), e).

(** A place with a display name equal to its identity, a rating and a review
    count. *)
Definition rated_place (name : string) (r n : R) : raw_place :=
  mkRaw name (Some name) None None None (Some r) (Some n) None None.

(** Answers every request with five places: ["a"] and ["c"] equal on both
    sort keys, ["b"] rated higher, ["d"] below the usual thresholds, and a
    second sighting of ["a"] with other attributes. *)
Definition stub_five (_ : request) (e : unit) : outcome response * unit :=
  (Ok (RObject (Some [rated_place "a" 4.6 200; rated_place "b" 4.9 150;
                      rated_place "c" 4.6 200; rated_place "d" 3 10;
                      rated_place "a" 1 1])), e).

(** A formatted place that carries only a name and the two sort keys. *)
Definition sample_formatted (name : string) (rating reviewCount : R)
  : formatted_place :=
  mkFormatted name "" (mkLatLng 0 0) rating reviewCount 0 [] "" name None.

Definition stub_clock (_ : unit) : Z := 0%Z.
Definition stub_distance (_ _ _ _ : R) : R := 0.

(** Seven weekday lines are rotated from Monday-first to Sunday-first. *)
Definition rotate_week (openingHours : list string) : list string :=
  if (List.length openingHours =? 7)%nat
  then match nth_error openingHours 6 with
       | Some sunday => sunday :: firstn 6 openingHours
       | None => openingHours
       end
  else openingHours.

(** The comparator handed to [sort]:
    [b.rating - a.rating || b.reviewCount - a.reviewCount]. *)
Definition compare_places (a b : formatted_place) : R :=
  let byRating := f_rating b - f_rating a in
  if Reqb byRating 0 then f_reviewCount b - f_reviewCount a else byRating.

(** [Array.prototype.sort] is a built-in: it is modelled from its
    specification, a stable sort by the comparator, [a] placed after [b]
    when [comparator a b > 0].  Insertion from the right keeps equal elements
    in their original order. *)
Fixpoint sort_insert {A} (comparator : A -> A -> R) (x : A) (l : list A)
  : list A :=
  match l with
  | [] => [x]
  | y :: l' =>
      if Rgtb (comparator x y) 0
      then y :: sort_insert comparator x l'
      else x :: y :: l'
  end.

Definition array_sort {A} (comparator : A -> A -> R) (l : list A) : list A :=
  fold_right (sort_insert comparator) [] l.

(** The order of the emitted list: higher rating first, and among equal
    ratings more reviews first. *)
Definition ranks_before (a b : formatted_place) : Prop :=
  f_rating a > f_rating b
  \/ (f_rating a = f_rating b /\ f_reviewCount a >= f_reviewCount b).

(** Two places equal on both sort keys. *)
Definition same_rank (a b : formatted_place) : bool :=
  Reqb (f_rating a) (f_rating b) && Reqb (f_reviewCount a) (f_reviewCount b).

(** The [filter] with a [Set] of identities already seen: first occurrences
    only. *)
Fixpoint dedupe (seen : list string) (l : list seen_place) : list seen_place :=
  match l with
  | [] => []
  | p :: l' =>
      if existsb (String.eqb (p_id p)) seen
      then dedupe seen l'
      else p :: dedupe (p_id p :: seen) l'
  end.

(** The run metrics. *)
Record metrics : Type := mkMetrics {
  metrics_apiCalls : nat;
  metrics_uniquePlaces : nat
}.

(** The value [adaptiveTilingSearch] returns. *)
Record search_result : Type := mkResult {
  result_places : list seen_place;
  result_metrics : metrics
}.

(** The parameters of a request to the adaptive endpoint after parsing and
    defaults; the coordinates may be NaN. *)
Record query : Type := mkQuery {
  q_latitude : jsnum;
  q_longitude : jsnum;
  q_radius : R;
  q_type : string;
  q_minRating : R;
  q_minReviews : R
}.

Record success_body : Type := mkSuccess {
  body_location : latlng;
  body_totalFound : nat;
  body_afterFilters : nat;
  body_places : list formatted_place;
  body_metrics : metrics
}.

Inductive http_body : Type :=
| RATE_LIMIT_EXCEEDED
| API_KEY_NOT_SET
| INVALID_COORDINATES
| SUCCESS (b : success_body)
| SEARCH_FAILED (message : string).

Record http_response : Type := mkResponse {
  status : nat;
  body : http_body
}.

Definition typeGroups (type : string) : list (list string) :=
  if String.eqb type "restaurant" then [["restaurant"]]
  else if String.eqb type "cafe" then [["cafe"; "coffee_shop"]]
  else [["restaurant"]; ["cafe"; "coffee_shop"]].

(** The local variables of one traversal. *)
Record locals : Type := mkLocals {
  queue : list tile;
  apiCalls : nat;
  seenPlaces : JsMap.t seen_place
}.

(** The condition of the [while] loop. *)
Definition loop_cond (st : locals) : bool :=
  (0 <? List.length (queue st))%nat && (apiCalls st <? MAX_API_CALLS)%nat.

Section Server.

(** The environment of the server: the network and the clock. *)
Variable Env : Type.
(** The answer of the network to a request; [Throw] is a rejected promise
    (transport error or timeout). *)
Variable respond : request -> Env -> outcome response * Env.
(** [Date.now()]. *)
Variable clock : Env -> Z.
(** The haversine distance of the source, whose value no property below
    depends on. *)
Variable calculateDistance : R -> R -> R -> R -> R.

(** The module state and the environment; [sent] logs the requests that
    went out. *)
Record world : Type := mkWorld {
  apiKey : option string;
  rateLimitStore : JsMap.t rate_entry;
  sent : list request;
  env : Env
}.

Definition checkRateLimit (ip : string) : M world bool :=
  fun w =>
    let now := clock (env w) in
    let store := rateLimitStore w in
    let restart :=
      (Ok true,
       mkWorld (apiKey w) (JsMap.set store ip (mkRate 1 now))
               (sent w) (env w)) in
    match JsMap.get store ip with
    | None => restart
    | Some data =>
        if (now - windowStart data >? WINDOW_MS)%Z
        then restart
        else (Ok (S (count data) <=? RATE_LIMIT)%nat,
              mkWorld (apiKey w)
                      (JsMap.set store ip
                                 (mkRate (S (count data)) (windowStart data)))
                      (sent w) (env w))
    end.

Definition httpsRequest (req : request) : M world response :=
  fun w =>
    let (r, e) := respond req (env w) in
    (r, mkWorld (apiKey w) (rateLimitStore w) (sent w ++ [req]) e).

Definition searchNearby (lat lng radius : R) (types : list string)
  : M world (list raw_place) :=
  fun w =>
    if truthy (apiKey w)
    then (response <- httpsRequest
                        (mkRequest (str_or (apiKey w) "") types 20
                                   lat lng radius) ;;
          match response with
          | RNull => throw "TypeError"
          | RObject (Some places) => ret places
          | RObject None => ret []
          end) w
    else throw "API key not configured" w.

(** One round of the [while] loop. *)
Definition loop_body (types : list string) (st : locals) : M world locals :=
  match queue st with
  | [] =>
      (* [shift] yields [undefined]; reading [tile.lat] throws inside [try] *)
      ret (mkLocals [] (S (apiCalls st)) (seenPlaces st))
  | tile :: rest =>
      try_catch
        (places <- searchNearby (lat tile) (lng tile) (radius tile) types ;;
         ret (mkLocals
                (if should_subdivide places tile
                 then rest ++ subdivide tile
                 else rest)
                (S (apiCalls st))
                (record_places places (seenPlaces st))))
        (fun err => ret (mkLocals rest (S (apiCalls st)) (seenPlaces st)))
  end.

(** The [while] loop; [None] when [fuel] rounds were not enough. *)
Fixpoint while_loop (fuel : nat) (types : list string) (st : locals)
         (w : world) : option (outcome locals * world) :=
  if loop_cond st
  then match fuel with
       | O => None
       | S fuel' =>
           match loop_body types st w with
           | (Ok st', w') => while_loop fuel' types st' w'
           | (Throw e, w') => Some (Throw e, w')
           end
       end
  else Some (Ok st, w).

Definition initial (lat lng radiusMeters : R) : locals :=
  mkLocals [mkTile lat lng radiusMeters 0] 0 JsMap.empty.

(** The traversal up to the end of the loop. *)
Definition traverse (fuel : nat) (lat lng radiusMeters : R)
           (types : list string) (w : world)
  : option (outcome locals * world) :=
  while_loop fuel types (initial lat lng radiusMeters) w.

Definition adaptiveTilingSearch (fuel : nat) (lat lng radiusMeters : R)
           (types : list string) (w : world)
  : option (outcome search_result * world) :=
  match traverse fuel lat lng radiusMeters types w with
  | None => None
  | Some (Throw e, w') => Some (Throw e, w')
  | Some (Ok st, w') =>
      Some (Ok (mkResult (JsMap.values (seenPlaces st))
                         (mkMetrics (apiCalls st)
                                    (JsMap.size (seenPlaces st)))),
            w')
  end.

Definition formatPlace (place : seen_place) (searchLat searchLng : R)
  : formatted_place :=
  let lat := match p_location place with Some l => latitude l | None => 0 end in
  let lng := match p_location place with Some l => longitude l | None => 0 end in
  {| f_name := p_name place;
     f_address := str_or (p_address place) "";
     f_location := mkLatLng lat lng;
     f_rating := p_rating place;
     f_reviewCount := p_reviewCount place;
     f_distance := calculateDistance searchLat searchLng lat lng;
     f_openingHours := rotate_week (p_openingHours place);
     f_googleMapsUrl :=
       if truthy (p_googleMapsUri place)
       then (str_or (p_googleMapsUri place) "" ++ "?hl=he")%string
       else "";
     f_placeId := p_id place;
     f_type := p_type place |}.

(** The [for (const types of typeGroups)] loop of the handler. *)
Fixpoint search_groups (fuel : nat) (lat lng radiusMeters : R)
         (groups : list (list string)) (allPlaces : list seen_place)
         (totalMetrics : metrics) (w : world)
  : option (outcome (list seen_place * metrics) * world) :=
  match groups with
  | [] => Some (Ok (allPlaces, totalMetrics), w)
  | types :: groups' =>
      match adaptiveTilingSearch fuel lat lng radiusMeters types w with
      | None => None
      | Some (Throw e, w') => Some (Throw e, w')
      | Some (Ok result, w') =>
          search_groups fuel lat lng radiusMeters groups'
            (allPlaces ++ result_places result)
            (mkMetrics
               (metrics_apiCalls totalMetrics
                + metrics_apiCalls (result_metrics result))
               (metrics_uniquePlaces totalMetrics))
            w'
      end
  end.

(** The places before the final sort: deduplicated, formatted, filtered. *)
Definition filtered_places (q : query) (lat lng : R)
           (allPlaces : list seen_place) : list formatted_place :=
  filter (fun p => Rgeb (f_rating p) (q_minRating q)
                   && Rgeb (f_reviewCount p) (q_minReviews q))
         (map (fun p => formatPlace p lat lng) (dedupe [] allPlaces)).

(** The handler of [/api/places/adaptive]. *)
Definition handle_adaptive (fuel : nat) (q : query) (w : world)
  : option (http_response * world) :=
  match checkRateLimit "local" w with
  | (Ok false, w1) => Some (mkResponse 429 RATE_LIMIT_EXCEEDED, w1)
  | (Throw e, w1) => Some (mkResponse 500 (SEARCH_FAILED e), w1)
  | (Ok true, w1) =>
      if negb (truthy (apiKey w1))
      then Some (mkResponse 400 API_KEY_NOT_SET, w1)
      else
        match q_latitude q, q_longitude q with
        | Some lat, Some lng =>
            let radiusMeters := q_radius q * 1000 in
            match search_groups fuel lat lng radiusMeters
                                (typeGroups (q_type q)) []
                                (mkMetrics 0 0) w1 with
            | None => None
            | Some (Throw e, w2) =>
                Some (mkResponse 500 (SEARCH_FAILED e), w2)
            | Some (Ok (allPlaces, totalMetrics), w2) =>
                let unique := dedupe [] allPlaces in
                let formatted :=
                  array_sort compare_places
                             (filtered_places q lat lng allPlaces) in
                Some (mkResponse 200
                        (SUCCESS
                           (mkSuccess (mkLatLng lat lng)
                                      (List.length unique)
                                      (List.length formatted)
                                      formatted
                                      totalMetrics)),
                      w2)
            end
        | _, _ => Some (mkResponse 400 INVALID_COORDINATES, w1)
        end
  end.

(** A provider that always reports truncation: every request is answered
    with at least [PROVIDER_CAPACITY] places. *)
Definition always_truncated : Prop :=
  forall (req : request) (e : Env),
  exists (places : list raw_place) (e' : Env),
    respond req e = (Ok (RObject (Some places)), e')
    /\ (PROVIDER_CAPACITY <= List.length places)%nat.

(** The number of tiles of the full subdivision tree below a tile of a
    given depth, the tile included: [1 + 4 + ... + 4 ^ (MAX_DEPTH - d)]. *)
Fixpoint tree_size (levels : nat) : nat :=
  match levels with
  | O => 1
  | S levels' => 1 + 4 * tree_size levels'
  end.

Definition subtree_size (t : tile) : nat := tree_size (MAX_DEPTH - depth t).

Definition queue_weight (q : list tile) : nat :=
  fold_right (fun t n => subtree_size t + n)%nat 0%nat q.

(** A tile of a traversal whose initial radius is large enough for every
    tile of depth below [MAX_DEPTH] to pass the radius test. *)
Definition deep_tile (t : tile) : Prop :=
  (depth t <= MAX_DEPTH)%nat /\ MIN_RADIUS * 2 ^ (MAX_DEPTH - 1) < radius t * 2 ^ depth t.

(** The locals and the world after exactly [n] rounds of the loop, when the
    loop runs that many. *)
Fixpoint after_rounds (n : nat) (types : list string) (st : locals)
         (w : world) : option (locals * world) :=
  match n with
  | O => Some (st, w)
  | S n' =>
      if loop_cond st
      then match loop_body types st w with
           | (Ok st', w') => after_rounds n' types st' w'
           | (Throw _, _) => None
           end
      else None
  end.

(** A tile that a traversal started with radius [radiusMeters] can hold: its
    depth is at most [MAX_DEPTH] and its radius is the initial one halved
    once per level. *)
Definition tile_of_traversal (radiusMeters : R) (t : tile) : Prop :=
  (depth t <= MAX_DEPTH)%nat /\ radius t = radiusMeters / 2 ^ depth t.

(** A queue in level order: tiles of one depth, then tiles one level
    deeper. *)
Definition level_ordered (q : list tile) : Prop :=
  exists (d : nat) (q1 q2 : list tile),
    q = q1 ++ q2
    /\ Forall (fun t => depth t = d) q1
    /\ Forall (fun t => depth t = S d) q2.

(** A request a traversal sends: the group's types, the result cap, one of
    the radii of the traversal. *)
Definition request_of_traversal (key : string) (types : list string)
           (radiusMeters : R) (req : request) : Prop :=
  req_key req = key
  /\ req_types req = types
  /\ req_maxResultCount req = PROVIDER_CAPACITY
  /\ exists d, (d <= MAX_DEPTH)%nat /\ req_radius req = radiusMeters / 2 ^ d.

(** Every record of the registry sits under its own identity and has a
    name. *)
Definition registry_ok (seen : JsMap.t seen_place) : Prop :=
  Forall (fun kv => fst kv = p_id (snd kv) /\ p_name (snd kv) <> "") seen.

(** The world at another moment of the environment. *)
Definition at_env (e : Env) (w : world) : world :=
  mkWorld (apiKey w) (rateLimitStore w) (sent w) e.

(** The answers of the rate limiter to requests of [ip] that arrive one
    after another, the environment being the given one at each arrival. *)
Fixpoint checks_in_turn (ip : string) (arrivals : list Env) (w : world)
  : list (outcome bool) * world :=
  match arrivals with
  | [] => ([], w)
  | e :: rest =>
      let (r, w1) := checkRateLimit ip (at_env e w) in
      let (rs, w2) := checks_in_turn ip rest w1 in
      (r :: rs, w2)
  end.

(** No window of [ip] is running at the moment of [e]: none was ever started,
    or the one started is more than [WINDOW_MS] old. *)
Definition window_over (ip : string) (e : Env) (w : world) : Prop :=
  match JsMap.get (rateLimitStore w) ip with
  | None => True
  | Some data => (clock e - windowStart data > WINDOW_MS)%Z
  end.

(** The number of tiles a traversal of [levels] levels of subdivision can
    still query below the tiles of a queue. *)
Definition levels_weight (levels : nat) (q : list tile) : nat :=
  fold_right (fun t n => tree_size (levels - depth t) + n)%nat 0%nat q.

(** A tile small enough for a traversal that subdivides at most [levels]
    times. *)
Definition within_levels (levels : nat) (t : tile) : Prop :=
  (depth t <= levels)%nat /\ radius t <= MIN_RADIUS * 2 ^ (levels - depth t).

(** A record made from a place of some answer of the provider. *)
Definition from_provider (p : seen_place) : Prop :=
  exists (req : request) (e e' : Env) (places : list raw_place)
         (place : raw_place),
    respond req e = (Ok (RObject (Some places)), e')
    /\ In place places
    /\ p = seen_entry place.

(** * Properties *)

(** ** Comparisons *)

Lemma Rgtb_true (x y : R) : Rgtb x y = true <-> x > y.
Proof. unfold Rgtb. destruct (Rgt_dec x y); split; intros; congruence || lra. Qed.

Lemma Rgtb_false (x y : R) : Rgtb x y = false <-> x <= y.
Proof. unfold Rgtb. destruct (Rgt_dec x y); split; intros; congruence || lra. Qed.

Lemma Rgeb_true (x y : R) : Rgeb x y = true <-> x >= y.
Proof. unfold Rgeb. destruct (Rge_dec x y); split; intros; congruence || lra. Qed.

Lemma Reqb_true (x y : R) : Reqb x y = true <-> x = y.
Proof. unfold Reqb. destruct (Req_dec_T x y); split; intros; congruence. Qed.

Lemma Reqb_false (x y : R) : Reqb x y = false <-> x <> y.
Proof. unfold Reqb. destruct (Req_dec_T x y); split; intros; congruence. Qed.

(** ** Coverage geometry *)

(** Each child is displaced from the parent center by the same number of
    meters along both axes. *)
Lemma child_displacement (factor : R) (t c : tile) :
  cos (lat t * PI / 180) <> 0 ->
  In c (children factor t) ->
  Rabs (north_meters (lat t) (lat c)) = Rabs (factor * (radius t / 2)) /\
  Rabs (east_meters (lat t) (lng t) (lng c)) = Rabs (factor * (radius t / 2)).
Proof.
  intros Hc Hin. unfold children in Hin. simpl in Hin.
  unfold north_meters, east_meters.
  destruct Hin as [<-|[<-|[<-|[<-|[]]]]]; simpl; unfold METERS_PER_DEGREE;
    split;
    first [ f_equal; field; assumption
          | rewrite <- (Rabs_Ropp (factor * _)); f_equal; field; assumption ].
Qed.

Lemma child_distance (factor : R) (t c : tile) :
  cos (lat t * PI / 180) <> 0 ->
  In c (children factor t) ->
  center_distance t c = sqrt 2 * Rabs (factor * (radius t / 2)).
Proof.
  intros Hc Hin. destruct (child_displacement factor t c Hc Hin) as [Hn He].
  unfold center_distance.
  rewrite (Rsqr_abs (north_meters _ _)), (Rsqr_abs (east_meters _ _ _)).
  rewrite Hn, He.
  set (a := Rabs _).
  assert (Ha : 0 <= a) by apply Rabs_pos.
  replace (a² + a²) with (2 * (a * a)) by (unfold Rsqr; ring).
  rewrite sqrt_mult_alt by lra.
  rewrite sqrt_square by assumption. reflexivity.
Qed.

Lemma child_radius (factor : R) (t c : tile) :
  In c (children factor t) -> radius c = radius t / 2.
Proof.
  unfold children. simpl. intros [<-|[<-|[<-|[<-|[]]]]]; reflexivity.
Qed.

Lemma sqrt2_bounds : 1.414 < sqrt 2 < 1.415.
Proof.
  split.
  - rewrite <- (sqrt_square 1.414) by lra. apply sqrt_lt_1_alt. lra.
  - rewrite <- (sqrt_square 1.415) by lra. apply sqrt_lt_1_alt. lra.
Qed.

Lemma should_subdivide_true (places : list raw_place) (t : tile) :
  should_subdivide places t = true <->
  (PROVIDER_CAPACITY <= List.length places)%nat
  /\ radius t > MIN_RADIUS /\ (depth t < MAX_DEPTH)%nat.
Proof.
  unfold should_subdivide.
  rewrite !andb_true_iff, Nat.leb_le, Nat.ltb_lt, Rgtb_true. tauto.
Qed.

(** C1 (coverage of the parent center).  Whenever the traversal subdivides
    a tile, the center of that tile lies in the disc of at least one of the
    four children pushed: its distance to that child's center, in meters
    under the conversion of the subdivision step, is at most the child's
    radius.  The cosine of the parent latitude is taken non-zero, as it is
    for every latitude strictly between the poles. *)
Theorem parent_center_covered (places : list raw_place) (t : tile) :
  should_subdivide places t = true ->
  cos (lat t * PI / 180) <> 0 ->
  exists c, In c (subdivide t) /\ covers_center_of c t.
Proof.
  intros Hsub Hcos.
  apply should_subdivide_true in Hsub as (_ & Hr & _).
  unfold MIN_RADIUS in Hr.
  assert (Hin : In (hd t (subdivide t)) (subdivide t)) by (left; reflexivity).
  exists (hd t (subdivide t)). split; [exact Hin|].
  unfold covers_center_of.
  rewrite (child_distance OVERLAP_FACTOR t _ Hcos Hin).
  rewrite (child_radius OVERLAP_FACTOR t _ Hin).
  unfold OVERLAP_FACTOR. rewrite Rabs_pos_eq by lra.
  pose proof sqrt2_bounds. nra.
Qed.

(** C4, as amended (distance of the child centers).  Each child center is
    displaced from the parent center by
    [offsetMeters = factor * childRadius] along each of the two axes, so it
    lies at distance [sqrt 2 * offsetMeters] from the parent center, not
    [offsetMeters].  The parent center lies in every child disc exactly
    when [sqrt 2 * factor <= 1]; the multiplier of the source satisfies
    it. *)
Theorem child_centers_at_diagonal_offset (factor : R) (t : tile) :
  cos (lat t * PI / 180) <> 0 ->
  0 <= factor ->
  0 < radius t ->
  Forall (fun c =>
            Rabs (north_meters (lat t) (lat c)) = factor * radius c /\
            Rabs (east_meters (lat t) (lng t) (lng c)) = factor * radius c /\
            center_distance t c = sqrt 2 * (factor * radius c) /\
            (covers_center_of c t <-> sqrt 2 * factor <= 1))
         (children factor t)
  /\ subdivide t = children OVERLAP_FACTOR t
  /\ sqrt 2 * OVERLAP_FACTOR <= 1.
Proof.
  intros Hcos Hf Hr. split; [|split].
  - apply Forall_forall. intros c Hin.
    destruct (child_displacement factor t c Hcos Hin) as [Hn He].
    pose proof (child_distance factor t c Hcos Hin) as Hd.
    rewrite (child_radius factor t c Hin).
    assert (Hp : 0 <= factor * (radius t / 2))
      by (apply Rmult_le_pos; lra).
    rewrite (Rabs_pos_eq _ Hp) in Hn, He, Hd.
    repeat split; try assumption.
    + unfold covers_center_of. rewrite Hd, (child_radius factor t c Hin).
      intros H. nra.
    + unfold covers_center_of. rewrite Hd, (child_radius factor t c Hin).
      intros H. nra.
  - reflexivity.
  - unfold OVERLAP_FACTOR. pose proof sqrt2_bounds. lra.
Qed.

Lemma cos_sample_parent : cos (lat sample_parent * PI / 180) = 1.
Proof.
  simpl. replace (0 * PI / 180) with 0 by field. apply cos_0.
Qed.

(** ** The provider call *)

Lemma httpsRequest_world (req : request) (w : world) :
  let (r, w') := httpsRequest req w in
  apiKey w' = apiKey w /\ rateLimitStore w' = rateLimitStore w
  /\ sent w' = sent w ++ [req].
Proof.
  unfold httpsRequest. destruct (respond req (env w)). simpl. auto.
Qed.

(** A nearby search leaves the credential alone and sends at most one
    request. *)
Lemma searchNearby_world (la lo r : R) (types : list string) (w : world) :
  let (o, w') := searchNearby la lo r types w in
  apiKey w' = apiKey w
  /\ (List.length (sent w') <= S (List.length (sent w)))%nat
  /\ (truthy (apiKey w) = true ->
      List.length (sent w') = S (List.length (sent w))).
Proof.
  unfold searchNearby. destruct (truthy (apiKey w)) eqn:Hk.
  - unfold bind.
    pose proof (httpsRequest_world
                  (mkRequest (str_or (apiKey w) "") types 20 la lo r) w) as H.
    destruct (httpsRequest _ w) as [[resp|e] w1]; destruct H as (Ha & _ & Hs).
    + assert (Hl : List.length (sent w1) = S (List.length (sent w)))
        by (rewrite Hs, length_app; simpl; lia).
      destruct resp as [|[places|]]; simpl; repeat split; auto; lia.
    + split; [exact Ha|]. rewrite Hs, length_app. simpl. split; intros; lia.
  - simpl. split; [reflexivity|]. split; [lia|discriminate].
Qed.

(** ** One round of the loop *)

Lemma loop_body_success (types : list string) (st : locals) (w w1 : world)
      (t : tile) (rest : list tile) (places : list raw_place) :
  queue st = t :: rest ->
  searchNearby (lat t) (lng t) (radius t) types w = (Ok places, w1) ->
  loop_body types st w =
  (Ok (mkLocals (if should_subdivide places t
                 then rest ++ subdivide t else rest)
                (S (apiCalls st))
                (record_places places (seenPlaces st))), w1).
Proof.
  intros Hq Hs. unfold loop_body, try_catch, bind. rewrite Hq, Hs.
  reflexivity.
Qed.

Lemma loop_body_failure (types : list string) (st : locals) (w w1 : world)
      (t : tile) (rest : list tile) (e : string) :
  queue st = t :: rest ->
  searchNearby (lat t) (lng t) (radius t) types w = (Throw e, w1) ->
  loop_body types st w =
  (Ok (mkLocals rest (S (apiCalls st)) (seenPlaces st)), w1).
Proof.
  intros Hq Hs. unfold loop_body, try_catch, bind. rewrite Hq, Hs.
  reflexivity.
Qed.

(** A round never throws, counts one call, sends at most one request and
    keeps the credential. *)
Lemma loop_body_returns (types : list string) (st : locals) (w : world) :
  exists st' w',
    loop_body types st w = (Ok st', w')
    /\ apiCalls st' = S (apiCalls st)
    /\ apiKey w' = apiKey w
    /\ (List.length (sent w') <= S (List.length (sent w)))%nat
    /\ (queue st <> [] -> truthy (apiKey w) = true ->
        List.length (sent w') = S (List.length (sent w))).
Proof.
  destruct (queue st) as [|t rest] eqn:Hq.
  - unfold loop_body. rewrite Hq. unfold ret.
    exists (mkLocals [] (S (apiCalls st)) (seenPlaces st)), w.
    repeat split; auto; congruence.
  - pose proof (searchNearby_world (lat t) (lng t) (radius t) types w) as H.
    destruct (searchNearby (lat t) (lng t) (radius t) types w)
      as [[places|e] w1] eqn:Hs; destruct H as (Ha & Hl & He).
    + rewrite (loop_body_success types st w w1 t rest places Hq Hs).
      eauto 10.
    + rewrite (loop_body_failure types st w w1 t rest e Hq Hs).
      eauto 10.
Qed.

Lemma loop_cond_true (st : locals) :
  loop_cond st = true <->
  queue st <> [] /\ (apiCalls st < MAX_API_CALLS)%nat.
Proof.
  unfold loop_cond. rewrite andb_true_iff, !Nat.ltb_lt.
  destruct (queue st); simpl; split; intros [H1 H2]; split;
    try lia; congruence.
Qed.

Lemma loop_cond_false (st : locals) :
  loop_cond st = false <->
  queue st = [] \/ (MAX_API_CALLS <= apiCalls st)%nat.
Proof.
  unfold loop_cond. rewrite andb_false_iff, !Nat.ltb_ge.
  destruct (queue st); simpl; split; intros [H|H]; auto; try lia;
    discriminate.
Qed.

(** ** The loop *)

Lemma while_loop_step (fuel : nat) (types : list string) (st st1 : locals)
      (w w1 : world) :
  loop_cond st = true ->
  loop_body types st w = (Ok st1, w1) ->
  while_loop (S fuel) types st w = while_loop fuel types st1 w1.
Proof. intros Hc Hb. simpl. rewrite Hc, Hb. reflexivity. Qed.

Lemma while_loop_exit (fuel : nat) (types : list string) (st : locals)
      (w : world) :
  loop_cond st = false ->
  while_loop fuel types st w = Some (Ok st, w).
Proof. intros Hc. destruct fuel; simpl; rewrite Hc; reflexivity. Qed.

(** With the rounds the budget leaves, the loop ends normally; the counter
    ends within the budget, at the budget if tiles remain, and bounds the
    requests sent. *)
Lemma while_loop_total (types : list string) (fuel : nat) :
  forall (st : locals) (w : world),
    (MAX_API_CALLS - apiCalls st <= fuel)%nat ->
    exists st' w',
      while_loop fuel types st w = Some (Ok st', w')
      /\ loop_cond st' = false
      /\ (apiCalls st <= apiCalls st')%nat
      /\ ((apiCalls st <= MAX_API_CALLS)%nat ->
          (apiCalls st' <= MAX_API_CALLS)%nat)
      /\ (List.length (sent w') + apiCalls st
          <= List.length (sent w) + apiCalls st')%nat
      /\ (truthy (apiKey w) = true ->
          List.length (sent w') + apiCalls st
          = List.length (sent w) + apiCalls st')%nat
      /\ apiKey w' = apiKey w.
Proof.
  induction fuel as [|fuel IH]; intros st w Hf.
  - assert (Hc : loop_cond st = false)
      by (apply loop_cond_false; right; lia).
    exists st, w. rewrite (while_loop_exit 0 types st w Hc).
    repeat split; auto; lia.
  - destruct (loop_cond st) eqn:Hc.
    + destruct (loop_body_returns types st w)
        as (st1 & w1 & Hb & Hn & Hk & Hs & Hs').
      rewrite (while_loop_step fuel types st st1 w w1 Hc Hb).
      apply loop_cond_true in Hc as [Hne Hlt].
      destruct (IH st1 w1)
        as (st' & w' & Hw & Hc' & Hle & Hmax & Hsent & Hsent' & Hk');
        [lia|].
      exists st', w'. repeat split; auto; try lia; try congruence.
      intros Ht. specialize (Hs' Hne Ht). rewrite Hk in Hsent'.
      specialize (Hsent' Ht). lia.
    + exists st, w. rewrite (while_loop_exit _ types st w Hc).
      repeat split; auto; lia.
Qed.

(** More fuel than needed changes nothing. *)
Lemma while_loop_fuel (types : list string) (fuel : nat) :
  forall (st : locals) (w : world) (r : outcome locals * world) (k : nat),
    while_loop fuel types st w = Some r ->
    while_loop (fuel + k) types st w = Some r.
Proof.
  induction fuel as [|fuel IH]; intros st w r k; simpl.
  - destruct (loop_cond st) eqn:Hc; [discriminate|].
    intros H. rewrite (while_loop_exit _ types st w Hc). exact H.
  - destruct (loop_cond st) eqn:Hc; [|auto].
    destruct (loop_body types st w) as [[st1|e] w1]; auto.
Qed.

(** The loop runs exactly as many rounds as calls are counted. *)
Lemma while_loop_rounds (types : list string) (fuel : nat) :
  forall (st st' : locals) (w w' : world),
    while_loop fuel types st w = Some (Ok st', w') ->
    while_loop (apiCalls st' - apiCalls st) types st w = Some (Ok st', w')
    /\ (apiCalls st <= apiCalls st')%nat.
Proof.
  induction fuel as [|fuel IH]; intros st st' w w'; simpl.
  - destruct (loop_cond st) eqn:Hc; [discriminate|].
    intros H. injection H as <- <-. rewrite Nat.sub_diag.
    split; [apply while_loop_exit; exact Hc | lia].
  - destruct (loop_cond st) eqn:Hc.
    + destruct (loop_body_returns types st w)
        as (st1 & w1 & Hb & Hn & _). rewrite Hb. intros H.
      destruct (IH _ _ _ _ H) as [Hr Hle].
      replace (apiCalls st' - apiCalls st)%nat
        with (S (apiCalls st' - apiCalls st1)) by lia.
      rewrite (while_loop_step _ types st st1 w w1 Hc Hb).
      split; [exact Hr | lia].
    + intros H. injection H as <- <-. rewrite Nat.sub_diag.
      split; [apply while_loop_exit; exact Hc | lia].
Qed.

(** C5 (termination of a traversal).  For every input and every provider,
    the loop of a traversal ends normally within [MAX_API_CALLS] rounds:
    that much fuel is enough, the number of rounds run is the final call
    count, at most [MAX_API_CALLS], and the loop ends with the queue empty
    or the budget used up. *)
Theorem traversal_terminates (fuel : nat) (lat lng radiusMeters : R)
        (types : list string) (w : world) :
  (MAX_API_CALLS <= fuel)%nat ->
  exists st' w',
    traverse fuel lat lng radiusMeters types w = Some (Ok st', w')
    /\ traverse (apiCalls st') lat lng radiusMeters types w
       = Some (Ok st', w')
    /\ (apiCalls st' <= MAX_API_CALLS)%nat
    /\ (queue st' = [] \/ apiCalls st' = MAX_API_CALLS).
Proof.
  intros Hf. unfold traverse.
  destruct (while_loop_total types fuel (initial lat lng radiusMeters) w)
    as (st' & w' & Hw & Hc & Hle & Hmax & _); [cbn [initial apiCalls]; lia|].
  exists st', w'. split; [exact Hw|].
  destruct (while_loop_rounds types fuel _ _ _ _ Hw) as [Hr _].
  cbn [initial apiCalls] in Hr. rewrite Nat.sub_0_r in Hr.
  split; [exact Hr|].
  assert (Hb : (apiCalls st' <= MAX_API_CALLS)%nat)
    by (apply Hmax; cbn [initial apiCalls]; lia).
  split; [exact Hb|].
  apply loop_cond_false in Hc as [Hq|Hq]; [left; exact Hq | right; lia].
Qed.

(** ** A provider that always reports truncation *)

Lemma searchNearby_truncated (la lo r : R) (types : list string) (w : world) :
  always_truncated ->
  truthy (apiKey w) = true ->
  exists places w1,
    searchNearby la lo r types w = (Ok places, w1)
    /\ (PROVIDER_CAPACITY <= List.length places)%nat.
Proof.
  intros Hfull Hk. unfold searchNearby, bind, httpsRequest. rewrite Hk.
  destruct (Hfull (mkRequest (str_or (apiKey w) "") types 20 la lo r) (env w))
    as (places & e' & -> & Hlen).
  simpl. unfold ret. eauto.
Qed.

Lemma tree_size_pos (n : nat) : (1 <= tree_size n)%nat.
Proof. destruct n; simpl; lia. Qed.

Lemma queue_weight_app (q1 q2 : list tile) :
  queue_weight (q1 ++ q2) = (queue_weight q1 + queue_weight q2)%nat.
Proof.
  induction q1 as [|t q1 IH]; simpl; [reflexivity|].
  unfold queue_weight in *. simpl. rewrite IH. lia.
Qed.

Lemma queue_weight_subdivide (t : tile) :
  (depth t < MAX_DEPTH)%nat ->
  (queue_weight (subdivide t) + 1 = subtree_size t)%nat.
Proof.
  intros Hd. unfold queue_weight, subdivide, children, subtree_size.
  cbn [fold_right depth].
  assert (E : (MAX_DEPTH - depth t = S (MAX_DEPTH - (depth t + 1)))%nat)
    by lia.
  rewrite E. cbn [tree_size]. lia.
Qed.

Lemma deep_tile_radius (t : tile) :
  deep_tile t -> (depth t < MAX_DEPTH)%nat -> radius t > MIN_RADIUS.
Proof.
  unfold deep_tile, MAX_DEPTH, MIN_RADIUS. intros [_ Hr] Hd.
  destruct (depth t) as [|[|[|[|[|d]]]]]; simpl in Hr; try lra; lia.
Qed.

Lemma deep_tile_children (t : tile) :
  deep_tile t -> (depth t < MAX_DEPTH)%nat -> Forall deep_tile (subdivide t).
Proof.
  intros [Hd Hr] Hlt.
  assert (Hc : forall la lo, deep_tile (mkTile la lo (radius t / 2) (depth t + 1))).
  { intros la lo. split; simpl; [lia|].
    rewrite Nat.add_1_r. simpl.
    replace (radius t / 2 * (2 * 2 ^ depth t)) with (radius t * 2 ^ depth t)
      by field.
    exact Hr. }
  unfold subdivide, children.
  repeat (apply Forall_cons; [apply Hc|]). apply Forall_nil.
Qed.

(** With such a provider and every tile deep, each round makes the queue
    one tile lighter, so the queue outlasts the budget. *)
Lemma truncated_exhausts_budget (types : list string) (fuel : nat) :
  always_truncated ->
  forall (st : locals) (w : world),
    truthy (apiKey w) = true ->
    Forall deep_tile (queue st) ->
    (queue_weight (queue st) + apiCalls st = tree_size MAX_DEPTH)%nat ->
    (apiCalls st <= MAX_API_CALLS)%nat ->
    (MAX_API_CALLS - apiCalls st <= fuel)%nat ->
    exists st' w',
      while_loop fuel types st w = Some (Ok st', w')
      /\ apiCalls st' = MAX_API_CALLS.
Proof.
  intros Hfull. induction fuel as [|fuel IH]; intros st w Hk Hdeep Hw Hle Hf.
  - exists st, w. split; [|lia].
    apply while_loop_exit, loop_cond_false. right. lia.
  - destruct (loop_cond st) eqn:Hc.
    + apply loop_cond_true in Hc as Hc'. destruct Hc' as [Hne Hlt].
      destruct (queue st) as [|t rest] eqn:Hq; [congruence|].
      destruct (searchNearby_truncated (lat t) (lng t) (radius t) types w
                                       Hfull Hk)
        as (places & w1 & Hs & Hlen).
      pose proof (searchNearby_world (lat t) (lng t) (radius t) types w) as Hw1.
      rewrite Hs in Hw1. destruct Hw1 as (Hk1 & _).
      pose proof (loop_body_success types st w w1 t rest places Hq Hs) as Hb.
      rewrite (while_loop_step fuel types st _ w w1 Hc Hb).
      inversion Hdeep as [|? ? Ht Hrest]; subst.
      change (queue_weight (t :: rest))
        with (subtree_size t + queue_weight rest)%nat in Hw.
      apply IH; cbn [queue apiCalls]; try lia; try congruence.
      * destruct (should_subdivide places t) eqn:Hsub; [|exact Hrest].
        apply should_subdivide_true in Hsub as (_ & _ & Hd).
        apply Forall_app. split; [exact Hrest|].
        apply deep_tile_children; assumption.
      * destruct (should_subdivide places t) eqn:Hsub.
        -- apply should_subdivide_true in Hsub as (_ & _ & Hd).
           rewrite queue_weight_app.
           pose proof (queue_weight_subdivide t Hd). lia.
        -- assert (Hd : ~ (depth t < MAX_DEPTH)%nat).
           { intros Hd.
             assert (should_subdivide places t = true); [|congruence].
             apply should_subdivide_true. repeat split; auto.
             apply deep_tile_radius; assumption. }
           destruct Ht as [Hd5 _].
           unfold subtree_size in Hw.
           replace (MAX_DEPTH - depth t)%nat with 0%nat in Hw by lia.
           cbn [tree_size] in Hw. lia.
    + exists st, w. split; [apply while_loop_exit; exact Hc|].
      apply loop_cond_false in Hc as [Hq|Hq]; [|lia].
      rewrite Hq in Hw. change (queue_weight []) with 0%nat in Hw.
      change (tree_size MAX_DEPTH) with 1365%nat in Hw.
      unfold MAX_API_CALLS in *. lia.
Qed.

(** C2 (call budget).  For every input and every provider, the traversal
    ends with at most [MAX_API_CALLS] calls counted; the requests it sent
    are no more than the calls counted (as many, when the credential is
    set); if it ends with tiles left in the queue the count is exactly
    [MAX_API_CALLS]; and with a provider that always reports truncation
    and an initial radius that keeps every tile above the radius floor, the
    count is exactly [MAX_API_CALLS]. *)
Theorem call_budget_respected (fuel : nat) (lat lng radiusMeters : R)
        (types : list string) (w : world) :
  (MAX_API_CALLS <= fuel)%nat ->
  exists st' w',
    traverse fuel lat lng radiusMeters types w = Some (Ok st', w')
    /\ (apiCalls st' <= MAX_API_CALLS)%nat
    /\ (List.length (sent w') <= List.length (sent w) + apiCalls st')%nat
    /\ (truthy (apiKey w) = true ->
        List.length (sent w') = List.length (sent w) + apiCalls st')%nat
    /\ (queue st' <> [] -> apiCalls st' = MAX_API_CALLS)
    /\ (always_truncated -> truthy (apiKey w) = true ->
        radiusMeters > MIN_RADIUS * 2 ^ (MAX_DEPTH - 1) ->
        apiCalls st' = MAX_API_CALLS).
Proof.
  intros Hf. unfold traverse.
  destruct (while_loop_total types fuel (initial lat lng radiusMeters) w)
    as (st' & w' & Hw & Hc & Hle & Hmax & Hsent & Hsent' & _);
    [cbn [initial apiCalls]; lia|].
  cbn [initial apiCalls] in *.
  exists st', w'. repeat split; auto; try lia.
  - intros Hk. specialize (Hsent' Hk). lia.
  - intros Hq. apply loop_cond_false in Hc as [Hc|Hc]; [congruence|].
    specialize (Hmax ltac:(lia)). lia.
  - intros Hfull Hk Hr.
    destruct (truncated_exhausts_budget types fuel Hfull
                (initial lat lng radiusMeters) w Hk)
      as (st2 & w2 & Hw2 & Hn); cbn [initial apiCalls queue]; try lia.
    + apply Forall_cons; [|apply Forall_nil].
      split; [unfold MAX_DEPTH; simpl; lia|].
      unfold MIN_RADIUS, MAX_DEPTH in Hr |- *. simpl in Hr |- *. lra.
    + reflexivity.
    + assert (E : Some (Ok st2, w2) = Some (Ok st', w'))
        by (rewrite <- Hw, <- Hw2; reflexivity).
      injection E as -> ->. exact Hn.
Qed.

(** ** The subdivision rule *)

Lemma subdivide_length (t : tile) : List.length (subdivide t) = 4%nat.
Proof. reflexivity. Qed.

Lemma enqueued_children_differ (rest : list tile) (t : tile) :
  rest ++ subdivide t <> rest.
Proof.
  intros H. apply (f_equal (@List.length tile)) in H.
  rewrite length_app, subdivide_length in H. lia.
Qed.

(** C3, as amended (subdivision rule).  For a tile dequeued and queried with
    success, the round appends the tile's four children to the rest of the
    queue exactly when the result count is at least [PROVIDER_CAPACITY], the
    tile's radius exceeds [MIN_RADIUS] and its depth is below [MAX_DEPTH];
    otherwise the queue is the rest alone.  The children are four tiles, each
    of half the tile's radius and one level deeper, at the four diagonal
    offsets.  A result count below capacity, a depth of [MAX_DEPTH] and a
    radius of at most [MIN_RADIUS] each rule subdivision out; for a provider
    that keeps to its capacity the count condition is equality. *)
Theorem subdivision_rule (types : list string) (st : locals) (w w1 : world)
        (t : tile) (rest : list tile) (places : list raw_place) :
  queue st = t :: rest ->
  searchNearby (lat t) (lng t) (radius t) types w = (Ok places, w1) ->
  exists st',
    loop_body types st w = (Ok st', w1)
    /\ (queue st' = rest ++ subdivide t <->
        (PROVIDER_CAPACITY <= List.length places)%nat
        /\ radius t > MIN_RADIUS
        /\ (depth t < MAX_DEPTH)%nat)
    /\ (queue st' = rest <->
        ~ ((PROVIDER_CAPACITY <= List.length places)%nat
           /\ radius t > MIN_RADIUS
           /\ (depth t < MAX_DEPTH)%nat))
    /\ List.length (subdivide t) = 4%nat
    /\ Forall (fun c => radius c = radius t / 2 /\ depth c = S (depth t))
              (subdivide t)
    /\ (exists o lo,
          map (fun c => (lat c, lng c)) (subdivide t)
          = [(lat t + o, lng t - lo); (lat t + o, lng t + lo);
             (lat t - o, lng t - lo); (lat t - o, lng t + lo)])
    /\ ((List.length places < PROVIDER_CAPACITY)%nat -> queue st' = rest)
    /\ (depth t = MAX_DEPTH -> queue st' = rest)
    /\ (radius t <= MIN_RADIUS -> queue st' = rest)
    /\ ((List.length places <= PROVIDER_CAPACITY)%nat ->
        (queue st' = rest ++ subdivide t <->
         List.length places = PROVIDER_CAPACITY
         /\ radius t > MIN_RADIUS
         /\ (depth t < MAX_DEPTH)%nat)).
Proof.
  intros Hq Hs.
  rewrite (loop_body_success types st w w1 t rest places Hq Hs).
  eexists. split; [reflexivity|]. cbn [queue].
  pose proof (should_subdivide_true places t) as Hiff.
  pose proof (enqueued_children_differ rest t) as Hne.
  assert (Hch : Forall (fun c => radius c = radius t / 2
                                 /\ depth c = S (depth t)) (subdivide t)).
  { apply Forall_forall. intros c Hin.
    unfold subdivide, children in Hin. simpl in Hin.
    destruct Hin as [<-|[<-|[<-|[<-|[]]]]]; simpl; split; auto; lia. }
  assert (Hxy : exists o lo,
             map (fun c => (lat c, lng c)) (subdivide t)
             = [(lat t + o, lng t - lo); (lat t + o, lng t + lo);
                (lat t - o, lng t - lo); (lat t - o, lng t + lo)])
    by (eexists; eexists; reflexivity).
  destruct (should_subdivide places t).
  - destruct Hiff as [Hiff _]. destruct (Hiff eq_refl) as (Hl & Hr & Hd).
    split; [split; [intros _; repeat split; assumption
                   | intros _; reflexivity]|].
    split; [split; [intros H; contradiction
                   | intros H; exfalso; apply H; repeat split; assumption]|].
    split; [reflexivity|]. split; [exact Hch|]. split; [exact Hxy|].
    split; [intros Hlt; lia|]. split; [intros Hd5; lia|].
    split; [intros Hr5; lra|].
    intros Hcap. split; [intros _|reflexivity]. repeat split; auto. lia.
  - destruct Hiff as [_ Hiff].
    assert (Hno : ~ ((PROVIDER_CAPACITY <= List.length places)%nat
                     /\ radius t > MIN_RADIUS /\ (depth t < MAX_DEPTH)%nat))
      by (intros H; specialize (Hiff H); discriminate).
    split; [split; [intros H; symmetry in H; contradiction
                   | intros H; contradiction]|].
    split; [split; [intros _; exact Hno | intros _; reflexivity]|].
    split; [reflexivity|]. split; [exact Hch|]. split; [exact Hxy|].
    split; [reflexivity|]. split; [reflexivity|]. split; [reflexivity|].
    intros Hcap. split.
    + intros H. symmetry in H. contradiction.
    + intros (Hl & Hr & Hd). exfalso. apply Hno. repeat split; auto. lia.
Qed.

(** ** Provider failure *)

(** A nearby search throws only without a credential, on a rejected
    request, or on a [null] body. *)
Lemma searchNearby_throws (la lo r : R) (types : list string) (w w1 : world)
      (e : string) :
  searchNearby la lo r types w = (Throw e, w1) ->
  truthy (apiKey w) = false
  \/ (exists req e', respond req (env w) = (Throw e, e'))
  \/ (exists req e', respond req (env w) = (Ok RNull, e')).
Proof.
  unfold searchNearby, bind, httpsRequest.
  destruct (truthy (apiKey w)); [|auto].
  destruct (respond _ (env w)) as [[resp|e0] e'] eqn:Hr.
  - destruct resp as [|[places|]]; unfold ret, throw; try discriminate.
    intros _. right. right. eauto.
  - intros H. injection H as -> _. right. left. eauto.
Qed.

(** C7 (provider failure).  When the query of the dequeued tile fails, the
    round ends normally: the registry is unchanged, the queue is the rest
    of the queue (no children, the tile not requeued), the call is counted,
    the loop goes on from that state, and the traversal ends normally. *)
Theorem provider_failure_is_zero_result (types : list string) (st : locals)
        (w w1 : world) (t : tile) (rest : list tile) (e : string) :
  queue st = t :: rest ->
  searchNearby (lat t) (lng t) (radius t) types w = (Throw e, w1) ->
  loop_body types st w
  = (Ok (mkLocals rest (S (apiCalls st)) (seenPlaces st)), w1)
  /\ (loop_cond st = true ->
      forall fuel,
        while_loop (S fuel) types st w
        = while_loop fuel types
                     (mkLocals rest (S (apiCalls st)) (seenPlaces st)) w1)
  /\ (exists st' w',
        while_loop MAX_API_CALLS types st w = Some (Ok st', w')).
Proof.
  intros Hq Hs.
  pose proof (loop_body_failure types st w w1 t rest e Hq Hs) as Hb.
  split; [exact Hb|]. split.
  - intros Hc fuel. apply while_loop_step; assumption.
  - destruct (while_loop_total types MAX_API_CALLS st w)
      as (st' & w' & Hw & _); [lia|]. eauto.
Qed.

(** ** The registry *)

Lemma get_set_same {V} (m : JsMap.t V) (k : string) (v : V) :
  JsMap.get (JsMap.set m k v) k = Some v.
Proof.
  induction m as [|[k' v'] m IH]; simpl.
  - rewrite String.eqb_refl. reflexivity.
  - destruct (String.eqb k' k) eqn:E; simpl; rewrite E; auto.
Qed.

Lemma get_set_other {V} (m : JsMap.t V) (k k' : string) (v : V) :
  k <> k' -> JsMap.get (JsMap.set m k v) k' = JsMap.get m k'.
Proof.
  intros Hne. induction m as [|[k0 v0] m IH]; simpl.
  - destruct (String.eqb_spec k k'); [contradiction|reflexivity].
  - destruct (String.eqb_spec k0 k) as [->|Hk]; simpl.
    + destruct (String.eqb_spec k k'); [contradiction|reflexivity].
    + destruct (String.eqb k0 k'); auto.
Qed.

Lemma get_none_keys {V} (m : JsMap.t V) (k : string) :
  JsMap.get m k = None <-> ~ In k (JsMap.keys m).
Proof.
  induction m as [|[k' v'] m IH]; simpl; [tauto|].
  destruct (String.eqb_spec k' k) as [->|Hk].
  - split; [discriminate|]. intros H. exfalso. apply H. left. reflexivity.
  - rewrite IH. split; [intros H [E|E]; [congruence|auto] | tauto].
Qed.

Lemma keys_set_absent {V} (m : JsMap.t V) (k : string) (v : V) :
  JsMap.get m k = None ->
  JsMap.keys (JsMap.set m k v) = JsMap.keys m ++ [k].
Proof.
  induction m as [|[k' v'] m IH]; simpl; [reflexivity|].
  destruct (String.eqb k' k); [discriminate|].
  intros H. unfold JsMap.keys in *. simpl. f_equal. exact (IH H).
Qed.

(** Inserting an identity already present leaves the registry as it is. *)
Lemma record_place_present (seen : JsMap.t seen_place) (place : raw_place) :
  JsMap.has seen (id place) = true -> record_place seen place = seen.
Proof. unfold record_place. intros ->. reflexivity. Qed.

Lemma record_place_keeps (seen : JsMap.t seen_place) (place : raw_place)
      (x : string) (r : seen_place) :
  JsMap.get seen x = Some r -> JsMap.get (record_place seen place) x = Some r.
Proof.
  intros Hx. unfold record_place, JsMap.has.
  destruct (JsMap.get seen (id place)) eqn:Hp; simpl; [exact Hx|].
  rewrite get_set_other; [exact Hx|]. congruence.
Qed.

Lemma record_place_nodup (seen : JsMap.t seen_place) (place : raw_place) :
  NoDup (JsMap.keys seen) -> NoDup (JsMap.keys (record_place seen place)).
Proof.
  intros Hnd. unfold record_place, JsMap.has.
  destruct (JsMap.get seen (id place)) eqn:Hp; simpl; [exact Hnd|].
  rewrite (keys_set_absent _ _ _ Hp).
  apply NoDup_app; [exact Hnd | repeat constructor; auto |].
  intros k Hin [<-|[]]. apply get_none_keys in Hp. contradiction.
Qed.

Lemma record_places_keeps (places : list raw_place) :
  forall (seen : JsMap.t seen_place) (x : string) (r : seen_place),
    JsMap.get seen x = Some r ->
    JsMap.get (record_places places seen) x = Some r.
Proof.
  unfold record_places.
  induction places as [|p places IH]; intros seen x r Hx; simpl; [exact Hx|].
  apply IH, record_place_keeps, Hx.
Qed.

Lemma record_places_nodup (places : list raw_place) :
  forall (seen : JsMap.t seen_place),
    NoDup (JsMap.keys seen) ->
    NoDup (JsMap.keys (record_places places seen)).
Proof.
  unfold record_places.
  induction places as [|p places IH]; intros seen Hnd; simpl; [exact Hnd|].
  apply IH, record_place_nodup, Hnd.
Qed.

(** The first place of a response that carries a new identity is the one
    recorded for it. *)
Lemma record_places_first (places : list raw_place) :
  forall (seen : JsMap.t seen_place) (x : string) (p : raw_place),
    JsMap.get seen x = None ->
    find (fun q => String.eqb (id q) x) places = Some p ->
    JsMap.get (record_places places seen) x = Some (seen_entry p).
Proof.
  unfold record_places.
  induction places as [|q places IH]; intros seen x p Hx Hf; simpl in *;
    [discriminate|].
  destruct (String.eqb_spec (id q) x) as [E|E].
  - injection Hf as <-. apply (record_places_keeps places).
    unfold record_place, JsMap.has. rewrite E, Hx. simpl.
    apply get_set_same.
  - apply IH; [|exact Hf].
    unfold record_place, JsMap.has.
    destruct (JsMap.get seen (id q)); simpl; [exact Hx|].
    rewrite get_set_other; [exact Hx | exact E].
Qed.

(** A round only ever adds to the registry by [record_places]. *)
Lemma loop_body_registry (types : list string) (st st1 : locals)
      (w w1 : world) :
  loop_body types st w = (Ok st1, w1) ->
  exists places, seenPlaces st1 = record_places places (seenPlaces st).
Proof.
  destruct (queue st) as [|t rest] eqn:Hq.
  - unfold loop_body. rewrite Hq. unfold ret. intros H.
    injection H as <- _. exists []. reflexivity.
  - destruct (searchNearby (lat t) (lng t) (radius t) types w)
      as [[places|e] w2] eqn:Hs.
    + rewrite (loop_body_success types st w w2 t rest places Hq Hs).
      intros H. injection H as <- _. exists places. reflexivity.
    + rewrite (loop_body_failure types st w w2 t rest e Hq Hs).
      intros H. injection H as <- _. exists []. reflexivity.
Qed.

(** Through the loop, recorded identities keep their record and the
    registry keeps one record per identity. *)
Lemma while_loop_registry (types : list string) (fuel : nat) :
  forall (st st' : locals) (w w' : world),
    while_loop fuel types st w = Some (Ok st', w') ->
    (NoDup (JsMap.keys (seenPlaces st)) ->
     NoDup (JsMap.keys (seenPlaces st')))
    /\ (forall x r, JsMap.get (seenPlaces st) x = Some r ->
                    JsMap.get (seenPlaces st') x = Some r).
Proof.
  induction fuel as [|fuel IH]; intros st st' w w'; simpl.
  - destruct (loop_cond st); [discriminate|].
    intros H. injection H as <- <-. auto.
  - destruct (loop_cond st); [|intros H; injection H as <- <-; auto].
    destruct (loop_body types st w) as [[st1|e] w1] eqn:Hb; [|discriminate].
    intros H. destruct (IH _ _ _ _ H) as [Hnd Hkeep].
    destruct (loop_body_registry types st st1 w w1 Hb) as [places Hp].
    split.
    + intros H0. apply Hnd. rewrite Hp. apply record_places_nodup, H0.
    + intros x r Hx. apply Hkeep. rewrite Hp.
      apply record_places_keeps, Hx.
Qed.

(** C6 (first write wins).  At any point of a traversal, let the tile at
    the head of the queue return a place [p], the first of its response
    with identity [x], while the registry has no record for [x].  Then,
    whatever the tiles processed later return, the traversal ends with
    exactly one record for [x], the one made from [p]: its identity, type,
    location, address and link are those of [p], its name, rating, review
    count and opening hours those of [p] with the defaults for absent
    fields; and recording a place whose identity is present leaves the
    registry unchanged. *)
Theorem first_write_wins (types : list string) (st : locals) (w w1 : world)
        (t : tile) (rest : list tile) (places : list raw_place)
        (x : string) (p : raw_place) :
  loop_cond st = true ->
  queue st = t :: rest ->
  searchNearby (lat t) (lng t) (radius t) types w = (Ok places, w1) ->
  NoDup (JsMap.keys (seenPlaces st)) ->
  JsMap.get (seenPlaces st) x = None ->
  find (fun q => String.eqb (id q) x) places = Some p ->
  exists st' w',
    while_loop MAX_API_CALLS types st w = Some (Ok st', w')
    /\ JsMap.get (seenPlaces st') x = Some (seen_entry p)
    /\ count_occ string_dec (JsMap.keys (seenPlaces st')) x = 1%nat
    /\ (forall later,
           id later = x ->
           record_place (seenPlaces st') later = seenPlaces st')
    /\ (exists r,
          JsMap.get (seenPlaces st') x = Some r
          /\ p_id r = id p
          /\ p_name r = str_or (displayName p) "Unknown"
          /\ p_type r = primaryType p
          /\ p_location r = location p
          /\ p_address r = formattedAddress p
          /\ p_rating r = num_or_0 (rating p)
          /\ p_reviewCount r = num_or_0 (userRatingCount p)
          /\ p_openingHours r
             = match regularOpeningHours p with Some l => l | None => [] end
          /\ p_googleMapsUri r = googleMapsUri p).
Proof.
  intros Hc Hq Hs Hnd Hx Hf.
  destruct (while_loop_total types MAX_API_CALLS st w)
    as (st' & w' & Hw & _); [lia|].
  exists st', w'. split; [exact Hw|].
  pose proof (loop_body_success types st w w1 t rest places Hq Hs) as Hb.
  assert (Hfuel : MAX_API_CALLS = S (MAX_API_CALLS - 1)) by reflexivity.
  rewrite Hfuel in Hw.
  rewrite (while_loop_step _ types st _ w w1 Hc Hb) in Hw.
  destruct (while_loop_registry types _ _ _ _ _ Hw) as [Hnd' Hkeep].
  cbn [seenPlaces] in Hnd', Hkeep.
  assert (Hget : JsMap.get (seenPlaces st') x = Some (seen_entry p))
    by (apply Hkeep, record_places_first; assumption).
  split; [exact Hget|]. split.
  - apply NoDup_count_occ'.
    + apply Hnd', record_places_nodup, Hnd.
    + destruct (in_dec string_dec x (JsMap.keys (seenPlaces st')))
        as [Hin|Hin]; [exact Hin|].
      apply get_none_keys in Hin. congruence.
  - split.
    + intros later <-. apply record_place_present.
      unfold JsMap.has. rewrite Hget. reflexivity.
    + exists (seen_entry p). split; [exact Hget|].
      repeat split; reflexivity.
Qed.

(** ** The final sort *)

Lemma compare_places_before (a b : formatted_place) :
  compare_places a b <= 0 <-> ranks_before a b.
Proof.
  unfold compare_places, ranks_before.
  destruct (Reqb (f_rating b - f_rating a) 0) eqn:E;
    [apply Reqb_true in E | apply Reqb_false in E]; split.
  - intros H. right. split; lra.
  - intros [H|[_ H]]; lra.
  - intros H. left. destruct (Rtotal_order (f_rating b - f_rating a) 0)
      as [T|[T|T]]; [lra | contradiction | lra].
  - intros [H|[H _]]; [lra|]. exfalso. apply E. lra.
Qed.

Lemma compare_places_after (a b : formatted_place) :
  compare_places a b > 0 <-> ~ ranks_before a b.
Proof.
  rewrite <- compare_places_before. split; intros H; [lra|].
  destruct (Rgt_dec (compare_places a b) 0) as [G|G]; [exact G|].
  exfalso. apply H. lra.
Qed.

Lemma ranks_before_total (a b : formatted_place) :
  ranks_before a b \/ ranks_before b a.
Proof.
  unfold ranks_before.
  destruct (Rtotal_order (f_rating a) (f_rating b)) as [H|[H|H]];
    [right; left; lra | | left; left; lra].
  destruct (Rle_dec (f_reviewCount b) (f_reviewCount a)).
  - left. right. split; lra.
  - right. right. split; lra.
Qed.

Lemma ranks_before_trans (a b c : formatted_place) :
  ranks_before a b -> ranks_before b c -> ranks_before a c.
Proof.
  unfold ranks_before. intros [H1|[H1 H1']] [H2|[H2 H2']];
    try (left; lra). right. split; lra.
Qed.

Lemma same_rank_compare (k a b : formatted_place) :
  same_rank k a = true -> same_rank k b = true -> ~ compare_places a b > 0.
Proof.
  unfold same_rank. rewrite !andb_true_iff, !Reqb_true.
  intros [Ha Ha'] [Hb Hb']. rewrite compare_places_after.
  intros H. apply H. right. split; lra.
Qed.

Lemma sort_insert_perm {A} (cmp : A -> A -> R) (x : A) (l : list A) :
  Permutation (x :: l) (sort_insert cmp x l).
Proof.
  induction l as [|y l IH]; simpl; [reflexivity|].
  destruct (Rgtb (cmp x y) 0); [|reflexivity].
  rewrite perm_swap. apply perm_skip, IH.
Qed.

Lemma array_sort_perm {A} (cmp : A -> A -> R) (l : list A) :
  Permutation l (array_sort cmp l).
Proof.
  induction l as [|x l IH]; simpl; [reflexivity|].
  rewrite <- sort_insert_perm. apply perm_skip, IH.
Qed.

Lemma sort_insert_sorted (x : formatted_place) (l : list formatted_place) :
  StronglySorted ranks_before l ->
  StronglySorted ranks_before (sort_insert compare_places x l).
Proof.
  induction l as [|y l IH]; intros Hs; simpl.
  - repeat constructor.
  - inversion Hs as [|? ? Hl Hy]; subst.
    destruct (Rgtb (compare_places x y) 0) eqn:E.
    + apply Rgtb_true, compare_places_after in E.
      assert (Hyx : ranks_before y x)
        by (destruct (ranks_before_total x y); [contradiction|assumption]).
      constructor; [apply IH, Hl|].
      apply (Permutation_Forall (sort_insert_perm compare_places x l)).
      constructor; assumption.
    + apply Rgtb_false in E.
      assert (Hxy : ranks_before x y) by (apply compare_places_before, E).
      constructor; [exact Hs|]. constructor; [exact Hxy|].
      eapply Forall_impl; [|exact Hy].
      intros z Hz. eapply ranks_before_trans; eassumption.
Qed.

Lemma array_sort_sorted (l : list formatted_place) :
  StronglySorted ranks_before (array_sort compare_places l).
Proof.
  induction l as [|x l IH]; simpl; [constructor|].
  apply sort_insert_sorted, IH.
Qed.

(** Insertion keeps the places of any one rank in their order. *)
Lemma sort_insert_stable (k x : formatted_place) (l : list formatted_place) :
  filter (same_rank k) (sort_insert compare_places x l)
  = filter (same_rank k) (x :: l).
Proof.
  induction l as [|y l IH]; [reflexivity|].
  cbn [sort_insert].
  destruct (Rgtb (compare_places x y) 0) eqn:E; [|reflexivity].
  apply Rgtb_true in E.
  cbn [filter] in *. rewrite IH.
  destruct (same_rank k x) eqn:Hx; [|reflexivity].
  destruct (same_rank k y) eqn:Hy; [|reflexivity].
  exfalso. exact (same_rank_compare k x y Hx Hy E).
Qed.

Lemma array_sort_stable (k : formatted_place) (l : list formatted_place) :
  filter (same_rank k) (array_sort compare_places l)
  = filter (same_rank k) l.
Proof.
  induction l as [|x l IH]; [reflexivity|].
  cbn [array_sort fold_right]. fold (array_sort compare_places l).
  rewrite sort_insert_stable. cbn [filter]. rewrite IH. reflexivity.
Qed.

(** ** The handler *)

Lemma checkRateLimit_world (ip : string) (w : world) :
  exists ok w1,
    checkRateLimit ip w = (Ok ok, w1)
    /\ apiKey w1 = apiKey w /\ sent w1 = sent w /\ env w1 = env w.
Proof.
  unfold checkRateLimit.
  destruct (JsMap.get (rateLimitStore w) ip) as [data|]; [|eauto 10].
  destruct (clock (env w) - windowStart data >? WINDOW_MS)%Z; eauto 10.
Qed.

(** What a success response is made of. *)
Lemma handle_adaptive_success (fuel : nat) (q : query) (w w' : world)
      (r : http_response) (b : success_body) :
  handle_adaptive fuel q w = Some (r, w') ->
  body r = SUCCESS b ->
  exists w1 lat lng allPlaces totalMetrics,
    checkRateLimit "local" w = (Ok true, w1)
    /\ q_latitude q = Some lat
    /\ q_longitude q = Some lng
    /\ search_groups fuel lat lng (q_radius q * 1000)
                     (typeGroups (q_type q)) [] (mkMetrics 0 0) w1
       = Some (Ok (allPlaces, totalMetrics), w')
    /\ body_places b
       = array_sort compare_places (filtered_places q lat lng allPlaces)
    /\ body_totalFound b = List.length (dedupe [] allPlaces)
    /\ body_metrics b = totalMetrics.
Proof.
  unfold handle_adaptive.
  destruct (checkRateLimit "local" w) as [[[|]|e] w1];
    try (intros H; injection H as <- _; discriminate).
  destruct (negb (truthy (apiKey w1)));
    try (intros H; injection H as <- _; discriminate).
  destruct (q_latitude q) as [lat|], (q_longitude q) as [lng|];
    try (intros H; injection H as <- _; discriminate).
  destruct (search_groups fuel lat lng (q_radius q * 1000)
                          (typeGroups (q_type q)) [] (mkMetrics 0 0) w1)
    as [[[[allPlaces totalMetrics]|e] w2]|] eqn:Hs;
    try discriminate;
    try (intros H; injection H as <- _; discriminate).
  intros H Hb. injection H as <- <-. simpl in Hb. injection Hb as <-.
  exists w1, lat, lng, allPlaces, totalMetrics. simpl. auto 10.
Qed.

(** The loop over the type groups sums the calls and leaves the count of
    unique places as it found it. *)
Lemma search_groups_metrics (fuel : nat) (lat lng radiusMeters : R)
      (groups : list (list string)) :
  forall (allPlaces allPlaces' : list seen_place)
         (totalMetrics totalMetrics' : metrics) (w w' : world),
    search_groups fuel lat lng radiusMeters groups allPlaces totalMetrics w
    = Some (Ok (allPlaces', totalMetrics'), w') ->
    metrics_uniquePlaces totalMetrics' = metrics_uniquePlaces totalMetrics
    /\ (metrics_apiCalls totalMetrics <= metrics_apiCalls totalMetrics')%nat.
Proof.
  induction groups as [|types groups IH]; intros all all' tm tm' w w'; simpl.
  - intros H. injection H as _ <- _. split; [reflexivity|lia].
  - destruct (adaptiveTilingSearch fuel lat lng radiusMeters types w)
      as [[[result|e] w1]|]; try discriminate.
    intros H. apply IH in H as [H1 H2]. simpl in H1, H2. split; [exact H1|lia].
Qed.

(** C9 (order of the emitted list).  The list of a success response is the
    stable sort of the deduplicated, formatted and filtered places: it is
    ordered by rating descending, then by review count descending, it holds
    the same places, and the places equal on both keys stand in the order
    they had before the sort. *)
Theorem emitted_places_sorted_stably (fuel : nat) (q : query) (w w' : world)
        (b : success_body) :
  handle_adaptive fuel q w = Some (mkResponse 200 (SUCCESS b), w') ->
  exists w1 lat lng allPlaces totalMetrics,
    checkRateLimit "local" w = (Ok true, w1)
    /\ q_latitude q = Some lat
    /\ q_longitude q = Some lng
    /\ search_groups fuel lat lng (q_radius q * 1000)
                     (typeGroups (q_type q)) [] (mkMetrics 0 0) w1
       = Some (Ok (allPlaces, totalMetrics), w')
    /\ StronglySorted ranks_before (body_places b)
    /\ Permutation (filtered_places q lat lng allPlaces) (body_places b)
    /\ (forall k,
           filter (same_rank k) (body_places b)
           = filter (same_rank k) (filtered_places q lat lng allPlaces)).
Proof.
  intros H.
  destruct (handle_adaptive_success fuel q w w' _ b H eq_refl)
    as (w1 & lat & lng & allPlaces & totalMetrics
        & Hrl & Hlat & Hlng & Hs & Hp & _).
  exists w1, lat, lng, allPlaces, totalMetrics.
  rewrite Hp. repeat split; auto.
  - apply array_sort_sorted.
  - apply array_sort_perm.
  - intros k. apply array_sort_stable.
Qed.

(** C10 (the [uniquePlaces] metric).  In every success response of the
    adaptive endpoint the [uniquePlaces] field of the metrics is 0: the
    handler sums the calls of the traversals and nothing else. *)
Theorem unique_places_metric_is_zero (fuel : nat) (q : query) (w w' : world)
        (b : success_body) :
  handle_adaptive fuel q w = Some (mkResponse 200 (SUCCESS b), w') ->
  metrics_uniquePlaces (body_metrics b) = 0%nat.
Proof.
  intros H.
  destruct (handle_adaptive_success fuel q w w' _ b H eq_refl)
    as (w1 & lat & lng & allPlaces & totalMetrics
        & _ & _ & _ & Hs & _ & _ & ->).
  apply search_groups_metrics in Hs as [Hu _]. exact Hu.
Qed.

(** Coordinates that did not parse are turned down before any tile is
    scheduled: no request goes out. *)
Lemma invalid_coordinates_rejected (fuel : nat) (q : query) (w : world) :
  q_latitude q = None \/ q_longitude q = None ->
  exists r w',
    handle_adaptive fuel q w = Some (r, w')
    /\ (body r = INVALID_COORDINATES \/ body r = API_KEY_NOT_SET
        \/ body r = RATE_LIMIT_EXCEEDED)
    /\ sent w' = sent w.
Proof.
  intros Hq. unfold handle_adaptive.
  destruct (checkRateLimit_world "local" w) as (ok & w1 & -> & _ & Hs & _).
  destruct ok; [|eauto 10].
  destruct (negb (truthy (apiKey w1))); [eauto 10|].
  destruct Hq as [-> | ->]; [eauto 10|].
  destruct (q_latitude q); eauto 10.
Qed.

Lemma sort_insert_after {A} (cmp : A -> A -> R) (x y : A) (l : list A) :
  cmp x y > 0 -> sort_insert cmp x (y :: l) = y :: sort_insert cmp x l.
Proof.
  intros H. simpl. apply Rgtb_true in H. rewrite H. reflexivity.
Qed.

Lemma sort_insert_before {A} (cmp : A -> A -> R) (x y : A) (l : list A) :
  cmp x y <= 0 -> sort_insert cmp x (y :: l) = x :: y :: l.
Proof.
  intros H. simpl. apply Rgtb_false in H. rewrite H. reflexivity.
Qed.

Lemma compare_places_by_rating (a b : formatted_place) :
  f_rating b <> f_rating a ->
  compare_places a b = f_rating b - f_rating a.
Proof.
  intros H. unfold compare_places.
  destruct (Reqb (f_rating b - f_rating a) 0) eqn:E; [|reflexivity].
  apply Reqb_true in E. exfalso. apply H. lra.
Qed.

Lemma compare_places_by_reviews (a b : formatted_place) :
  f_rating b = f_rating a ->
  compare_places a b = f_reviewCount b - f_reviewCount a.
Proof.
  intros H. unfold compare_places.
  destruct (Reqb (f_rating b - f_rating a) 0) eqn:E; [reflexivity|].
  apply Reqb_false in E. exfalso. apply E. lra.
Qed.

(** The sort on three places, two of them equal on both keys: the better
    rated place comes first, the two equal ones keep their order. *)
Example array_sort_three :
  array_sort compare_places
             [sample_formatted "a" 4 10; sample_formatted "b" 5 7;
              sample_formatted "c" 4 10]
  = [sample_formatted "b" 5 7; sample_formatted "a" 4 10;
     sample_formatted "c" 4 10].
Proof.
  unfold array_sort. cbn [fold_right].
  change (sort_insert compare_places (sample_formatted "c" 4 10) [])
    with [sample_formatted "c" 4 10].
  rewrite (sort_insert_before compare_places (sample_formatted "b" 5 7))
    by (rewrite compare_places_by_rating; simpl; lra).
  rewrite (sort_insert_after compare_places (sample_formatted "a" 4 10))
    by (rewrite compare_places_by_rating; simpl; lra).
  rewrite (sort_insert_before compare_places (sample_formatted "a" 4 10))
    by (rewrite compare_places_by_reviews; simpl; lra).
  reflexivity.
Qed.

(** The registry of a traversal starts empty, so every state the loop
    passes holds one record per identity. *)
Lemma traverse_registry_nodup (fuel : nat) (lat lng radiusMeters : R)
      (types : list string) (w w' : world) (st' : locals) :
  traverse fuel lat lng radiusMeters types w = Some (Ok st', w') ->
  NoDup (JsMap.keys (seenPlaces st')).
Proof.
  intros H. apply (while_loop_registry types fuel _ _ _ _ H). constructor.
Qed.

(** * Further properties of the traversal *)

(** ** States along the loop *)

Lemma after_rounds_invariant (P : locals -> world -> Prop)
      (types : list string) :
  (forall st w st1 w1,
      P st w -> loop_cond st = true ->
      loop_body types st w = (Ok st1, w1) -> P st1 w1) ->
  forall n st w st' w',
    P st w -> after_rounds n types st w = Some (st', w') -> P st' w'.
Proof.
  intros Hstep. induction n as [|n IH]; intros st w st' w' HP; simpl.
  - intros H. injection H as <- <-. exact HP.
  - destruct (loop_cond st) eqn:Hc; [|discriminate].
    destruct (loop_body types st w) as [[st1|e] w1] eqn:Hb; [|discriminate].
    apply IH. exact (Hstep _ _ _ _ HP Hc Hb).
Qed.

(** The result of the loop is the state after as many rounds as calls were
    counted. *)
Lemma while_loop_after_rounds (types : list string) (fuel : nat) :
  forall st w st' w',
    while_loop fuel types st w = Some (Ok st', w') ->
    after_rounds (apiCalls st' - apiCalls st) types st w = Some (st', w').
Proof.
  induction fuel as [|fuel IH]; intros st w st' w'; simpl.
  - destruct (loop_cond st); [discriminate|].
    intros H. injection H as <- <-. rewrite Nat.sub_diag. reflexivity.
  - destruct (loop_cond st) eqn:Hc.
    + destruct (loop_body_returns types st w) as (st1 & w1 & Hb & Hn & _).
      rewrite Hb. intros H.
      destruct (while_loop_rounds types fuel _ _ _ _ H) as [_ Hle].
      apply IH in H.
      replace (apiCalls st' - apiCalls st)%nat
        with (S (apiCalls st' - apiCalls st1)) by lia.
      simpl. rewrite Hc, Hb. exact H.
    + intros H. injection H as <- <-. rewrite Nat.sub_diag. reflexivity.
Qed.

(** What one round does to the queue. *)
Lemma loop_body_queue (types : list string) (st st1 : locals) (w w1 : world)
      (t : tile) (rest : list tile) :
  queue st = t :: rest ->
  loop_body types st w = (Ok st1, w1) ->
  queue st1 = rest
  \/ (queue st1 = rest ++ subdivide t
      /\ radius t > MIN_RADIUS /\ (depth t < MAX_DEPTH)%nat).
Proof.
  intros Hq.
  destruct (searchNearby (lat t) (lng t) (radius t) types w)
    as [[places|e] w2] eqn:Hs.
  - rewrite (loop_body_success types st w w2 t rest places Hq Hs).
    intros H. injection H as <- _. cbn [queue].
    destruct (should_subdivide places t) eqn:Hsub; [|left; reflexivity].
    apply should_subdivide_true in Hsub as (_ & Hr & Hd). right. auto.
  - rewrite (loop_body_failure types st w w2 t rest e Hq Hs).
    intros H. injection H as <- _. left. reflexivity.
Qed.

Lemma subdivide_depth (t c : tile) :
  In c (subdivide t) -> depth c = S (depth t) /\ radius c = radius t / 2.
Proof.
  unfold subdivide, children. simpl.
  intros [<-|[<-|[<-|[<-|[]]]]]; simpl; split; auto; lia.
Qed.

(** Every tile the loop ever holds has depth at most [MAX_DEPTH] and the
    initial radius halved once per level of depth. *)
Theorem queued_tiles_halve_radius (n : nat) (lat lng radiusMeters : R)
        (types : list string) (w w' : world) (st' : locals) :
  after_rounds n types (initial lat lng radiusMeters) w = Some (st', w') ->
  Forall (tile_of_traversal radiusMeters) (queue st').
Proof.
  apply (after_rounds_invariant
           (fun st _ => Forall (tile_of_traversal radiusMeters) (queue st))).
  - intros st w0 st1 w1 Hinv Hc Hb.
    apply loop_cond_true in Hc as [Hne _].
    destruct (queue st) as [|t rest] eqn:Hq; [congruence|].
    inversion Hinv as [|? ? [Hd Hr] Hrest]; subst.
    destruct (loop_body_queue types st st1 w0 w1 t rest Hq Hb)
      as [->|(-> & _ & Hlt)]; [exact Hrest|].
    apply Forall_app. split; [exact Hrest|].
    apply Forall_forall. intros c Hin.
    apply subdivide_depth in Hin as [Hcd Hcr].
    split; [lia|]. rewrite Hcr, Hcd, Hr. simpl. field.
    apply pow_nonzero. lra.
  - constructor; [|constructor]. split; simpl; [lia | field].
Qed.

(** The queue is always in level order, so tiles are queried breadth
    first: never a deeper tile before a shallower one. *)
Theorem queue_is_level_ordered (n : nat) (lat lng radiusMeters : R)
        (types : list string) (w w' : world) (st' : locals) :
  after_rounds n types (initial lat lng radiusMeters) w = Some (st', w') ->
  level_ordered (queue st')
  /\ StronglySorted (fun a b => (depth a <= depth b)%nat) (queue st').
Proof.
  intros H.
  assert (Hlo : level_ordered (queue st')).
  { revert H.
    apply (after_rounds_invariant (fun st _ => level_ordered (queue st))).
    - intros st w0 st1 w1 (d & q1 & q2 & Hq & H1 & H2) Hc Hb.
      apply loop_cond_true in Hc as [Hne _].
      destruct q1 as [|t q1].
      + destruct q2 as [|t q2]; [simpl in Hq; congruence|].
        simpl in Hq. inversion H2 as [|? ? Ht Hq2]; subst.
        destruct (loop_body_queue types st st1 w0 w1 t q2 Hq Hb)
          as [->|(-> & _)].
        * exists (S d), q2, []. rewrite app_nil_r. auto.
        * exists (S d), q2, (subdivide t). repeat split; auto.
          apply Forall_forall. intros c Hin.
          apply subdivide_depth in Hin as [-> _]. congruence.
      + simpl in Hq. inversion H1 as [|? ? Ht Hq1]; subst.
        destruct (loop_body_queue types st st1 w0 w1 t (q1 ++ q2) Hq Hb)
          as [->|(-> & _)].
        * exists (depth t), q1, q2. auto.
        * exists (depth t), q1, (q2 ++ subdivide t).
          rewrite app_assoc. repeat split; auto.
          apply Forall_app. split; [exact H2|].
          apply Forall_forall. intros c Hin.
          apply subdivide_depth in Hin as [-> _]. reflexivity.
    - exists 0%nat, [mkTile lat lng radiusMeters 0], [].
      repeat split; auto. }
  split; [exact Hlo|].
  destruct Hlo as (d & q1 & q2 & -> & H1 & H2).
  clear H. induction q1 as [|t q1 IH].
  - simpl. induction q2 as [|t q2 IH2]; [constructor|].
    inversion H2 as [|? ? Ht Hq2]; subst.
    constructor; [apply IH2, Hq2|].
    eapply Forall_impl; [|exact Hq2]. intros c Hc. simpl in Hc. lia.
  - inversion H1 as [|? ? Ht Hq1]; subst. simpl.
    constructor; [apply IH, Hq1|].
    apply Forall_app. split.
    + eapply Forall_impl; [|exact Hq1]. intros c Hc. simpl in Hc. lia.
    + eapply Forall_impl; [|exact H2]. intros c Hc. simpl in Hc. lia.
Qed.

(** ** Calls, rounds and requests *)

Lemma after_rounds_calls (types : list string) (n : nat) :
  forall st w st' w',
    after_rounds n types st w = Some (st', w') ->
    apiCalls st' = (apiCalls st + n)%nat
    /\ (n > 0 -> apiCalls st' <= MAX_API_CALLS)%nat.
Proof.
  induction n as [|n IH]; intros st w st' w'; simpl.
  - intros H. injection H as <- <-. split; lia.
  - destruct (loop_cond st) eqn:Hc; [|discriminate].
    destruct (loop_body_returns types st w) as (st1 & w1 & Hb & Hn & _).
    rewrite Hb. intros H. apply IH in H as [H1 H2].
    apply loop_cond_true in Hc as [_ Hlt].
    split; [lia|]. intros _. destruct n; [lia | apply H2; lia].
Qed.

(** What a nearby search does to the world: without a credential nothing,
    with one exactly one request, the one for the given disc. *)
Lemma searchNearby_sent (la lo r : R) (types : list string) (w : world) :
  (truthy (apiKey w) = false ->
   searchNearby la lo r types w = (Throw "API key not configured", w))
  /\ (truthy (apiKey w) = true ->
      sent (snd (searchNearby la lo r types w))
      = sent w ++ [mkRequest (str_or (apiKey w) "") types 20 la lo r]).
Proof.
  unfold searchNearby, bind, httpsRequest. split; intros ->; [reflexivity|].
  destruct (respond _ (env w)) as [[[|[places|]]|e] e']; reflexivity.
Qed.

Lemma loop_body_sent (types : list string) (st st1 : locals) (w w1 : world)
      (t : tile) (rest : list tile) :
  queue st = t :: rest ->
  loop_body types st w = (Ok st1, w1) ->
  apiKey w1 = apiKey w
  /\ (truthy (apiKey w) = false -> sent w1 = sent w)
  /\ (truthy (apiKey w) = true ->
      sent w1 = sent w
                ++ [mkRequest (str_or (apiKey w) "") types 20
                              (lat t) (lng t) (radius t)]).
Proof.
  intros Hq Hb.
  pose proof (searchNearby_world (lat t) (lng t) (radius t) types w) as Hw.
  destruct (searchNearby_sent (lat t) (lng t) (radius t) types w) as [Hno Hyes].
  destruct (searchNearby (lat t) (lng t) (radius t) types w)
    as [[places|e] w2] eqn:Hs; destruct Hw as (Hk & _).
  - rewrite (loop_body_success types st w w2 t rest places Hq Hs) in Hb.
    injection Hb as _ <-. split; [exact Hk|]. split; [|exact Hyes].
    intros Hf. specialize (Hno Hf). discriminate.
  - rewrite (loop_body_failure types st w w2 t rest e Hq Hs) in Hb.
    injection Hb as _ <-. split; [exact Hk|]. split; [|exact Hyes].
    intros Hf. specialize (Hno Hf). injection Hno as _ ->. reflexivity.
Qed.

(** After [n] rounds [n] calls are counted, within the budget; the requests
    sent so far are at most that many (exactly that many with a credential),
    and each asks, with that credential and the group's types, for at most
    twenty places in a disc whose radius is the initial one halved at most
    [MAX_DEPTH] times. *)
Theorem requests_of_a_traversal (n : nat) (lat0 lng0 radiusMeters : R)
        (types : list string) (w w' : world) (st' : locals) :
  after_rounds n types (initial lat0 lng0 radiusMeters) w = Some (st', w') ->
  apiCalls st' = n
  /\ (n <= MAX_API_CALLS)%nat
  /\ exists new,
      sent w' = sent w ++ new
      /\ (List.length new <= n)%nat
      /\ (truthy (apiKey w) = true -> List.length new = n)
      /\ Forall (request_of_traversal (str_or (apiKey w) "") types
                                      radiusMeters) new.
Proof.
  intros H.
  destruct (after_rounds_calls types n _ _ _ _ H) as [Hn Hmax].
  cbn [initial apiCalls] in Hn. simpl in Hn.
  split; [exact Hn|].
  split; [destruct n; [unfold MAX_API_CALLS; lia | rewrite <- Hn; apply Hmax; lia]|].
  clear Hmax. subst n. revert H.
  set (P := fun (st : locals) (w1 : world) =>
              Forall (tile_of_traversal radiusMeters) (queue st)
              /\ apiKey w1 = apiKey w
              /\ exists new,
                  sent w1 = sent w ++ new
                  /\ (List.length new <= apiCalls st)%nat
                  /\ (truthy (apiKey w) = true ->
                      List.length new = apiCalls st)
                  /\ Forall (request_of_traversal (str_or (apiKey w) "")
                                                  types radiusMeters) new).
  intros H.
  enough (HP : P st' w') by (destruct HP as (_ & _ & HP); exact HP).
  revert H. apply (after_rounds_invariant P).
  - intros st w0 st1 w1 (Htiles & Hk & new & Hs & Hl & Hl' & Hgood) Hc Hb.
    pose proof Hc as Hc'. apply loop_cond_true in Hc' as [Hne _].
    destruct (queue st) as [|t rest] eqn:Hq; [congruence|].
    destruct (loop_body_returns types st w0) as (st2 & w2 & Hb2 & Hn & _).
    rewrite Hb in Hb2. injection Hb2 as <- <-.
    destruct (loop_body_sent types st st1 w0 w1 t rest Hq Hb)
      as (Hk1 & Hno & Hyes).
    inversion Htiles as [|? ? [Hd Hr] Hrest]; subst.
    split; [|split; [congruence|]].
    + destruct (loop_body_queue types st st1 w0 w1 t rest Hq Hb)
        as [->|(-> & _ & Hlt)]; [exact Hrest|].
      apply Forall_app. split; [exact Hrest|].
      apply Forall_forall. intros c Hin.
      apply subdivide_depth in Hin as [Hcd Hcr].
      split; [lia|]. rewrite Hcr, Hcd, Hr. simpl. field.
      apply pow_nonzero. lra.
    + rewrite Hk in Hno, Hyes.
      destruct (truthy (apiKey w)) eqn:Ht.
      * exists (new ++ [mkRequest (str_or (apiKey w) "") types 20
                                  (lat t) (lng t) (radius t)]).
        rewrite (Hyes eq_refl), Hs, app_assoc, length_app. simpl.
        split; [reflexivity|]. split; [lia|]. split.
        -- intros _. rewrite (Hl' eq_refl). lia.
        -- apply Forall_app. split; [exact Hgood|].
           constructor; [|constructor].
           repeat split; simpl; auto. exists (depth t). auto.
      * exists new. rewrite (Hno eq_refl), Hs.
        split; [reflexivity|]. split; [lia|]. split; [discriminate|].
        exact Hgood.
  - split; [|split; [reflexivity|]].
    + constructor; [|constructor]. split; simpl; [lia | field].
    + exists []. rewrite app_nil_r. simpl. repeat split; auto.
Qed.

(** ** The result of a traversal *)

Lemma set_absent {V} (m : JsMap.t V) (k : string) (v : V) :
  JsMap.get m k = None -> JsMap.set m k v = m ++ [(k, v)].
Proof.
  induction m as [|[k' v'] m IH]; simpl; [reflexivity|].
  destruct (String.eqb k' k); [discriminate|].
  intros H. rewrite (IH H). reflexivity.
Qed.

Lemma str_or_nonempty (s : option string) (d : string) :
  d <> "" -> str_or s d <> "".
Proof.
  intros Hd. unfold str_or, truthy. destruct s as [v|]; [|exact Hd].
  destruct (String.eqb_spec v ""); simpl; [exact Hd | assumption].
Qed.

Lemma record_places_ok (places : list raw_place) :
  forall seen, registry_ok seen -> registry_ok (record_places places seen).
Proof.
  unfold record_places.
  induction places as [|p places IH]; intros seen Hok; simpl; [exact Hok|].
  apply IH. unfold record_place, JsMap.has.
  destruct (JsMap.get seen (id p)) eqn:Hg; simpl; [exact Hok|].
  rewrite (set_absent _ _ _ Hg). apply Forall_app. split; [exact Hok|].
  constructor; [|constructor]. simpl. split; [reflexivity|].
  apply str_or_nonempty. discriminate.
Qed.

Lemma while_loop_registry_ok (types : list string) (fuel : nat) :
  forall st st' w w',
    while_loop fuel types st w = Some (Ok st', w') ->
    registry_ok (seenPlaces st) -> registry_ok (seenPlaces st').
Proof.
  induction fuel as [|fuel IH]; intros st st' w w'; simpl.
  - destruct (loop_cond st); [discriminate|].
    intros H. injection H as <- <-. auto.
  - destruct (loop_cond st); [|intros H; injection H as <- <-; auto].
    destruct (loop_body types st w) as [[st1|e] w1] eqn:Hb; [|discriminate].
    intros H Hok. apply (IH _ _ _ _ H).
    destruct (loop_body_registry types st st1 w w1 Hb) as [places ->].
    apply record_places_ok, Hok.
Qed.

Lemma registry_ok_ids (seen : JsMap.t seen_place) :
  registry_ok seen -> map p_id (JsMap.values seen) = JsMap.keys seen.
Proof.
  unfold registry_ok, JsMap.values, JsMap.keys.
  induction 1 as [|[k v] seen [Hk _] _ IH]; simpl; [reflexivity|].
  simpl in Hk. rewrite IH, Hk. reflexivity.
Qed.

(** With fuel for the budget a traversal always returns: places with pairwise
    distinct identities, each with a name, as many as [uniquePlaces] says,
    and a call count between one and [MAX_API_CALLS]. *)
Theorem adaptiveTilingSearch_result (fuel : nat) (lat0 lng0 radiusMeters : R)
        (types : list string) (w : world) :
  (MAX_API_CALLS <= fuel)%nat ->
  exists result w',
    adaptiveTilingSearch fuel lat0 lng0 radiusMeters types w
    = Some (Ok result, w')
    /\ NoDup (map p_id (result_places result))
    /\ Forall (fun p => p_name p <> "") (result_places result)
    /\ metrics_uniquePlaces (result_metrics result)
       = List.length (result_places result)
    /\ (1 <= metrics_apiCalls (result_metrics result) <= MAX_API_CALLS)%nat.
Proof.
  intros Hf. unfold adaptiveTilingSearch.
  destruct (while_loop_total types fuel (initial lat0 lng0 radiusMeters) w)
    as (st' & w' & Hw & Hc & _ & Hmax & _); [cbn [initial apiCalls]; lia|].
  unfold traverse. rewrite Hw. eexists. eexists. split; [reflexivity|].
  cbn [result_places result_metrics metrics_uniquePlaces metrics_apiCalls].
  assert (Hok : registry_ok (seenPlaces st'))
    by (apply (while_loop_registry_ok types fuel _ _ _ _ Hw); constructor).
  split; [|split; [|split; [|split]]].
  - rewrite (registry_ok_ids _ Hok).
    apply (while_loop_registry types fuel _ _ _ _ Hw). constructor.
  - unfold JsMap.values. apply Forall_map.
    eapply Forall_impl; [|exact Hok]. intros kv [_ H]. exact H.
  - unfold JsMap.size, JsMap.values. rewrite length_map. reflexivity.
  - destruct (while_loop_rounds types fuel _ _ _ _ Hw) as [Hr _].
    cbn [initial apiCalls] in Hr. rewrite Nat.sub_0_r in Hr.
    destruct (apiCalls st') eqn:E; [|lia].
    simpl in Hr. discriminate.
  - apply Hmax. cbn [initial apiCalls]. lia.
Qed.

(** A search disc of at most [MIN_RADIUS], or a first answer below capacity,
    costs exactly one call, whatever else the provider would answer. *)
Theorem single_call_traversal (fuel : nat) (lat0 lng0 radiusMeters : R)
        (types : list string) (w : world) :
  (1 <= fuel)%nat ->
  radiusMeters <= MIN_RADIUS
  \/ (forall places w1,
         searchNearby lat0 lng0 radiusMeters types w = (Ok places, w1) ->
         (List.length places < PROVIDER_CAPACITY)%nat) ->
  exists result w',
    adaptiveTilingSearch fuel lat0 lng0 radiusMeters types w
    = Some (Ok result, w')
    /\ metrics_apiCalls (result_metrics result) = 1%nat
    /\ (List.length (sent w') <= S (List.length (sent w)))%nat.
Proof.
  intros Hf Hr. destruct fuel as [|fuel]; [lia|].
  unfold adaptiveTilingSearch, traverse.
  set (st := initial lat0 lng0 radiusMeters).
  set (t := mkTile lat0 lng0 radiusMeters 0).
  assert (Hc : loop_cond st = true) by reflexivity.
  destruct (loop_body_returns types st w) as (st1 & w1 & Hb & Hn & _ & Hs & _).
  rewrite (while_loop_step fuel types st st1 w w1 Hc Hb).
  assert (Hq : queue st1 = []).
  { destruct (searchNearby lat0 lng0 radiusMeters types w)
      as [[places|e] w2] eqn:Hsn.
    - rewrite (loop_body_success types st w w2 t [] places eq_refl Hsn) in Hb.
      injection Hb as <- _. cbn [queue].
      destruct (should_subdivide places t) eqn:Hsub; [|reflexivity].
      apply should_subdivide_true in Hsub as (Hl & Hgt & _). exfalso.
      destruct Hr as [Hr|Hr]; [simpl in Hgt; lra|].
      specialize (Hr places w2 eq_refl). lia.
    - rewrite (loop_body_failure types st w w2 t [] e eq_refl Hsn) in Hb.
      injection Hb as <- _. reflexivity. }
  rewrite while_loop_exit by (apply loop_cond_false; left; exact Hq).
  eexists. eexists. split; [reflexivity|]. simpl. split; [exact Hn | exact Hs].
Qed.

(** Without a credential a traversal counts one call, sends nothing and
    finds nothing. *)
Theorem no_credential_no_request (fuel : nat) (lat0 lng0 radiusMeters : R)
        (types : list string) (w : world) :
  (1 <= fuel)%nat ->
  truthy (apiKey w) = false ->
  adaptiveTilingSearch fuel lat0 lng0 radiusMeters types w
  = Some (Ok (mkResult [] (mkMetrics 1 0)), w).
Proof.
  intros Hf Hk. destruct fuel as [|fuel]; [lia|].
  unfold adaptiveTilingSearch, traverse.
  set (st := initial lat0 lng0 radiusMeters).
  assert (Hc : loop_cond st = true) by reflexivity.
  destruct (searchNearby_sent lat0 lng0 radiusMeters types w) as [Hno _].
  pose proof (loop_body_failure types st w w
                (mkTile lat0 lng0 radiusMeters 0) []
                "API key not configured" eq_refl (Hno Hk)) as Hb.
  rewrite (while_loop_step fuel types st _ w w Hc Hb).
  rewrite while_loop_exit by reflexivity. reflexivity.
Qed.

(** ** Deduplication across type groups *)

Lemma existsb_eqb_In (x : string) (seen : list string) :
  existsb (String.eqb x) seen = true <-> In x seen.
Proof.
  rewrite existsb_exists. split.
  - intros (y & Hin & Heq). apply String.eqb_eq in Heq. subst. exact Hin.
  - intros Hin. exists x. split; [exact Hin | apply String.eqb_refl].
Qed.

Lemma dedupe_In (l : list seen_place) :
  forall seen p,
    In p (dedupe seen l) -> In p l /\ ~ In (p_id p) seen.
Proof.
  induction l as [|q l IH]; intros seen p; simpl; [tauto|].
  destruct (existsb (String.eqb (p_id q)) seen) eqn:E.
  - intros H. apply IH in H. tauto.
  - intros [<-|H].
    + split; [auto|]. rewrite <- existsb_eqb_In. congruence.
    + apply IH in H as [H1 H2]. split; [auto|].
      intros Hin. apply H2. right. exact Hin.
Qed.

Lemma dedupe_NoDup (l : list seen_place) :
  forall seen, NoDup (map p_id (dedupe seen l)).
Proof.
  induction l as [|q l IH]; intros seen; simpl; [constructor|].
  destruct (existsb (String.eqb (p_id q)) seen); [apply IH|].
  simpl. constructor; [|apply IH].
  intros Hin. apply in_map_iff in Hin as (p & Hid & Hp).
  apply dedupe_In in Hp as [_ Hp]. apply Hp. left. auto.
Qed.

Lemma dedupe_find (x : string) (l : list seen_place) :
  forall seen,
    ~ In x seen ->
    find (fun p => String.eqb (p_id p) x) (dedupe seen l)
    = find (fun p => String.eqb (p_id p) x) l.
Proof.
  induction l as [|q l IH]; intros seen Hx; simpl; [reflexivity|].
  destruct (existsb (String.eqb (p_id q)) seen) eqn:E.
  - apply existsb_eqb_In in E.
    destruct (String.eqb_spec (p_id q) x) as [Heq|Hne]; [congruence|].
    apply IH, Hx.
  - simpl. destruct (String.eqb_spec (p_id q) x) as [Heq|Hne]; [reflexivity|].
    apply IH. intros [H|H]; auto.
Qed.

Lemma dedupe_fixed (l : list seen_place) :
  forall seen,
    NoDup (map p_id l) ->
    (forall p, In p l -> ~ In (p_id p) seen) ->
    dedupe seen l = l.
Proof.
  induction l as [|q l IH]; intros seen Hnd Hseen; simpl; [reflexivity|].
  inversion Hnd as [|? ? Hq Hl]; subst.
  destruct (existsb (String.eqb (p_id q)) seen) eqn:E.
  - apply existsb_eqb_In in E. exfalso. apply (Hseen q); [left; auto|exact E].
  - f_equal. apply IH; [exact Hl|].
    intros p Hp [Heq|Hin].
    + apply Hq. rewrite Heq. apply in_map. exact Hp.
    + apply (Hseen p); [right; exact Hp | exact Hin].
Qed.

Lemma dedupe_length (l : list seen_place) :
  forall seen, (List.length (dedupe seen l) <= List.length l)%nat.
Proof.
  induction l as [|q l IH]; intros seen; simpl; [lia|].
  destruct (existsb (String.eqb (p_id q)) seen); simpl.
  - specialize (IH seen). lia.
  - specialize (IH (p_id q :: seen)). lia.
Qed.

(** The merge of the groups keeps, for every identity, exactly the first
    place that carries it: identities become pairwise distinct, looking a
    place up by identity gives the same place before and after, and merging
    again changes nothing. *)
Theorem dedupe_keeps_first (l : list seen_place) :
  NoDup (map p_id (dedupe [] l))
  /\ (forall x,
         find (fun p => String.eqb (p_id p) x) (dedupe [] l)
         = find (fun p => String.eqb (p_id p) x) l)
  /\ dedupe [] (dedupe [] l) = dedupe [] l
  /\ (NoDup (map p_id l) -> dedupe [] l = l).
Proof.
  split; [apply dedupe_NoDup|]. split; [|split].
  - intros x. apply dedupe_find. intros [].
  - apply dedupe_fixed; [apply dedupe_NoDup | intros p _ []].
  - intros Hnd. apply dedupe_fixed; [exact Hnd | intros p _ []].
Qed.

(** ** The handler as a whole *)

Lemma adaptiveTilingSearch_world (fuel : nat) (lat0 lng0 radiusMeters : R)
      (types : list string) (w : world) :
  (MAX_API_CALLS <= fuel)%nat ->
  exists result w',
    adaptiveTilingSearch fuel lat0 lng0 radiusMeters types w
    = Some (Ok result, w')
    /\ apiKey w' = apiKey w
    /\ (1 <= metrics_apiCalls (result_metrics result) <= MAX_API_CALLS)%nat
    /\ (List.length (sent w')
        <= List.length (sent w) + metrics_apiCalls (result_metrics result))%nat
    /\ (truthy (apiKey w) = true ->
        List.length (sent w')
        = List.length (sent w) + metrics_apiCalls (result_metrics result))%nat.
Proof.
  intros Hf. unfold adaptiveTilingSearch, traverse.
  destruct (while_loop_total types fuel (initial lat0 lng0 radiusMeters) w)
    as (st' & w' & Hw & Hc & _ & Hmax & Hs & Hs' & Hk);
    [cbn [initial apiCalls]; lia|].
  rewrite Hw. eexists. eexists. split; [reflexivity|].
  cbn [result_metrics metrics_apiCalls initial apiCalls] in *.
  split; [exact Hk|]. split; [|split].
  - split; [|apply Hmax; lia].
    destruct (while_loop_rounds types fuel _ _ _ _ Hw) as [Hr _].
    cbn [initial apiCalls] in Hr. rewrite Nat.sub_0_r in Hr.
    destruct (apiCalls st') eqn:E; [|lia]. simpl in Hr. discriminate.
  - lia.
  - intros Ht. specialize (Hs' Ht). lia.
Qed.

Lemma search_groups_total (fuel : nat) (lat0 lng0 radiusMeters : R)
      (groups : list (list string)) :
  (MAX_API_CALLS <= fuel)%nat ->
  forall allPlaces totalMetrics w,
  exists allPlaces' totalMetrics' w',
    search_groups fuel lat0 lng0 radiusMeters groups allPlaces totalMetrics w
    = Some (Ok (allPlaces', totalMetrics'), w')
    /\ apiKey w' = apiKey w
    /\ (metrics_apiCalls totalMetrics + List.length groups
        <= metrics_apiCalls totalMetrics'
        <= metrics_apiCalls totalMetrics
           + MAX_API_CALLS * List.length groups)%nat
    /\ (List.length (sent w') + metrics_apiCalls totalMetrics
        <= List.length (sent w) + metrics_apiCalls totalMetrics')%nat
    /\ (truthy (apiKey w) = true ->
        List.length (sent w') + metrics_apiCalls totalMetrics
        = List.length (sent w) + metrics_apiCalls totalMetrics')%nat.
Proof.
  intros Hf. induction groups as [|types groups IH]; intros all tm w.
  - simpl. exists all, tm, w. repeat split; auto; lia.
  - cbn [search_groups].
    destruct (adaptiveTilingSearch_world fuel lat0 lng0 radiusMeters types w Hf)
      as (result & w1 & -> & Hk & Hn & Hs & Hs').
    destruct (IH (all ++ result_places result)
                 (mkMetrics (metrics_apiCalls tm
                             + metrics_apiCalls (result_metrics result))
                            (metrics_uniquePlaces tm)) w1)
      as (all' & tm' & w' & -> & Hk' & Hn' & Hs2 & Hs2').
    cbn [metrics_apiCalls] in *.
    exists all', tm', w'. split; [reflexivity|]. split; [congruence|].
    cbn [List.length]. split; [lia|]. split; [lia|].
    intros Ht. specialize (Hs' Ht). rewrite Hk in Hs2'. specialize (Hs2' Ht).
    lia.
Qed.

Lemma typeGroups_length (type : string) :
  (1 <= List.length (typeGroups type) <= 2)%nat.
Proof.
  unfold typeGroups.
  destruct (String.eqb type "restaurant"); [simpl; lia|].
  destruct (String.eqb type "cafe"); simpl; lia.
Qed.


(** The [apiCalls] of a success response is the number of provider requests
    the request caused: at least one per type group and at most
    [MAX_API_CALLS] per type group, so at most 400. *)
Theorem api_calls_metric_counts_requests (fuel : nat) (q : query)
        (w w' : world) (b : success_body) :
  (MAX_API_CALLS <= fuel)%nat ->
  handle_adaptive fuel q w = Some (mkResponse 200 (SUCCESS b), w') ->
  List.length (sent w')
  = (List.length (sent w) + metrics_apiCalls (body_metrics b))%nat
  /\ (List.length (typeGroups (q_type q))
      <= metrics_apiCalls (body_metrics b)
      <= MAX_API_CALLS * List.length (typeGroups (q_type q)))%nat
  /\ (metrics_apiCalls (body_metrics b) <= 2 * MAX_API_CALLS)%nat.
Proof.
  intros Hf H.
  destruct (handle_adaptive_success fuel q w w' _ b H eq_refl)
    as (w1 & la & lo & all & tm & Hrl & _ & _ & Hs & _ & _ & ->).
  assert (Hkey : truthy (apiKey w1) = true).
  { unfold handle_adaptive in H. rewrite Hrl in H.
    destruct (truthy (apiKey w1)); [reflexivity|]. simpl in H. discriminate. }
  destruct (checkRateLimit_world "local" w) as (ok & w1' & Hrl' & _ & Hs1 & _).
  rewrite Hrl in Hrl'. injection Hrl' as <- <-.
  destruct (search_groups_total fuel la lo (q_radius q * 1000)
              (typeGroups (q_type q)) Hf [] (mkMetrics 0 0) w1)
    as (all' & tm' & w2 & Hs' & _ & Hn & _ & Hsent).
  rewrite Hs in Hs'. injection Hs' as <- <- <-.
  cbn [metrics_apiCalls] in *. specialize (Hsent Hkey).
  pose proof (typeGroups_length (q_type q)) as Hg.
  rewrite Hs1 in Hsent. split; [lia|]. split; [lia|]. nia.
Qed.

Lemma filter_keeps_distinct {A B} (key : A -> B) (keep : A -> bool) :
  forall items : list A,
    NoDup (map key items) -> NoDup (map key (filter keep items)).
Proof.
  intros items. induction items as [|x items IH]; simpl; [auto|].
  intros Hnd. inversion Hnd as [|? ? Hx Hrest]; subst.
  destruct (keep x); simpl; [|auto].
  constructor; [|auto]. intros Hin. apply Hx.
  apply in_map_iff in Hin as (y & Hy & Hin).
  apply filter_In in Hin as [Hin _]. rewrite <- Hy. apply in_map. exact Hin.
Qed.

(** The places of a success response all meet both thresholds, carry
    pairwise distinct identities, and are as many as [afterFilters] says,
    which is at most [totalFound]. *)
Theorem emitted_places_pass_filters (fuel : nat) (q : query) (w w' : world)
        (b : success_body) :
  handle_adaptive fuel q w = Some (mkResponse 200 (SUCCESS b), w') ->
  Forall (fun p => f_rating p >= q_minRating q
                   /\ f_reviewCount p >= q_minReviews q) (body_places b)
  /\ NoDup (map f_placeId (body_places b))
  /\ body_afterFilters b = List.length (body_places b)
  /\ (body_afterFilters b <= body_totalFound b)%nat.
Proof.
  intros H.
  destruct (handle_adaptive_success fuel q w w' _ b H eq_refl)
    as (w1 & la & lo & all & tm & Hrl & Hla & Hlo & Hs & Hp & Ht & _).
  assert (Hlen : body_afterFilters b = List.length (body_places b)).
  { unfold handle_adaptive in H. rewrite Hrl, Hla, Hlo, Hs in H.
    destruct (negb (truthy (apiKey w1))); [discriminate|].
    injection H as <-. reflexivity. }
  pose proof (array_sort_perm compare_places (filtered_places q la lo all))
    as Hperm.
  rewrite <- Hp in Hperm.
  split; [|split; [|split; [exact Hlen|]]].
  - apply (Permutation_Forall Hperm). unfold filtered_places.
    apply Forall_forall. intros p Hin.
    apply filter_In in Hin as [_ Hin].
    apply andb_true_iff in Hin as [H1 H2].
    split; apply Rgeb_true; assumption.
  - apply (Permutation_NoDup (Permutation_map f_placeId Hperm)).
    unfold filtered_places. apply filter_keeps_distinct.
    rewrite map_map. simpl. apply dedupe_NoDup.
  - rewrite Hlen, Ht, <- (Permutation_length Hperm).
    unfold filtered_places.
    etransitivity; [apply filter_length_le|]. rewrite length_map. lia.
Qed.

(** ** The rate limiter *)

Lemma checkRateLimit_running (ip : string) (w : world) (data : rate_entry) :
  JsMap.get (rateLimitStore w) ip = Some data ->
  (clock (env w) - windowStart data <= WINDOW_MS)%Z ->
  checkRateLimit ip w
  = (Ok (S (count data) <=? RATE_LIMIT)%nat,
     mkWorld (apiKey w)
             (JsMap.set (rateLimitStore w) ip
                        (mkRate (S (count data)) (windowStart data)))
             (sent w) (env w)).
Proof.
  intros Hg Hw. unfold checkRateLimit. rewrite Hg.
  destruct (Z.gtb_spec (clock (env w) - windowStart data) WINDOW_MS);
    [lia | reflexivity].
Qed.

Lemma checkRateLimit_restart (ip : string) (e : Env) (w : world) :
  window_over ip e w ->
  checkRateLimit ip (at_env e w)
  = (Ok true,
     mkWorld (apiKey w)
             (JsMap.set (rateLimitStore w) ip (mkRate 1 (clock e)))
             (sent w) e).
Proof.
  unfold window_over, checkRateLimit, at_env. simpl.
  destruct (JsMap.get (rateLimitStore w) ip) as [data|]; [|reflexivity].
  intros H.
  destruct (Z.gtb_spec (clock e - windowStart data) WINDOW_MS);
    [reflexivity | lia].
Qed.

Lemma checks_in_turn_running (ip : string) (arrivals : list Env) :
  forall (w : world) (c : nat) (s : Z),
    JsMap.get (rateLimitStore w) ip = Some (mkRate c s) ->
    Forall (fun e => (clock e - s <= WINDOW_MS)%Z) arrivals ->
    fst (checks_in_turn ip arrivals w)
    = map (fun k => Ok (k <=? RATE_LIMIT)%nat)
          (seq (S c) (List.length arrivals))
    /\ JsMap.get (rateLimitStore (snd (checks_in_turn ip arrivals w))) ip
       = Some (mkRate (c + List.length arrivals) s).
Proof.
  induction arrivals as [|e rest IH]; intros w c s Hg Hall.
  - simpl. rewrite Nat.add_0_r. auto.
  - inversion Hall as [|? ? He Hrest]; subst. cbn [checks_in_turn].
    rewrite (checkRateLimit_running ip (at_env e w) (mkRate c s))
      by (simpl; assumption).
    cbn [count windowStart at_env apiKey rateLimitStore sent env].
    set (w1 := mkWorld _ _ _ _).
    destruct (IH w1 (S c) s) as [H1 H2];
      [unfold w1; simpl; apply get_set_same | exact Hrest |].
    destruct (checks_in_turn ip rest w1) as [rs w2]. simpl in *.
    rewrite H1, H2. split; [reflexivity | f_equal; f_equal; lia].
Qed.

(** From the start of a window, the requests of one client that arrive
    within [WINDOW_MS] of it are admitted up to the [RATE_LIMIT]-th and
    refused from then on; refused requests are counted too. *)
Theorem rate_limit_per_window (ip : string) (e0 : Env) (rest : list Env)
        (w : world) :
  window_over ip e0 w ->
  Forall (fun e => (clock e - clock e0 <= WINDOW_MS)%Z) rest ->
  fst (checks_in_turn ip (e0 :: rest) w)
  = map (fun k => Ok (k <=? RATE_LIMIT)%nat) (seq 1 (S (List.length rest)))
  /\ JsMap.get (rateLimitStore (snd (checks_in_turn ip (e0 :: rest) w))) ip
     = Some (mkRate (S (List.length rest)) (clock e0)).
Proof.
  intros Hover Hall. cbn [checks_in_turn].
  rewrite (checkRateLimit_restart ip e0 w Hover).
  set (w1 := mkWorld _ _ _ _).
  destruct (checks_in_turn_running ip rest w1 1 (clock e0)) as [H1 H2];
    [unfold w1; simpl; apply get_set_same | exact Hall |].
  destruct (checks_in_turn ip rest w1) as [rs w2]. simpl in *.
  rewrite H1, H2. auto.
Qed.

(** A check touches nothing but the entry of its own client: other clients'
    entries, the credential, the request log and the environment stay. *)
Theorem checkRateLimit_isolated (ip other : string) (w : world) :
  ip <> other ->
  let w' := snd (checkRateLimit ip w) in
  JsMap.get (rateLimitStore w') other = JsMap.get (rateLimitStore w) other
  /\ apiKey w' = apiKey w /\ sent w' = sent w /\ env w' = env w.
Proof.
  intros Hne. unfold checkRateLimit.
  destruct (JsMap.get (rateLimitStore w) ip) as [data|];
    [destruct (clock (env w) - windowStart data >? WINDOW_MS)%Z|];
    simpl; rewrite get_set_other by exact Hne; auto.
Qed.

Lemma searchNearby_store (la lo r : R) (types : list string) (w : world) :
  rateLimitStore (snd (searchNearby la lo r types w)) = rateLimitStore w.
Proof.
  pose proof (httpsRequest_world
                (mkRequest (str_or (apiKey w) "") types 20 la lo r) w) as H.
  unfold searchNearby, bind.
  destruct (truthy (apiKey w)); [|reflexivity].
  destruct (httpsRequest _ w) as [[[|[places|]]|e] w1];
    destruct H as (_ & H & _); exact H.
Qed.

Lemma loop_body_store (types : list string) (st st1 : locals) (w w1 : world) :
  loop_body types st w = (Ok st1, w1) ->
  rateLimitStore w1 = rateLimitStore w.
Proof.
  destruct (queue st) as [|t rest] eqn:Hq.
  - unfold loop_body. rewrite Hq. unfold ret.
    intros H. injection H as _ <-. reflexivity.
  - pose proof (searchNearby_store (lat t) (lng t) (radius t) types w) as Hst.
    destruct (searchNearby (lat t) (lng t) (radius t) types w)
      as [[places|e] w2] eqn:Hs; simpl in Hst.
    + rewrite (loop_body_success types st w w2 t rest places Hq Hs).
      intros H. injection H as _ <-. exact Hst.
    + rewrite (loop_body_failure types st w w2 t rest e Hq Hs).
      intros H. injection H as _ <-. exact Hst.
Qed.

Lemma while_loop_store (types : list string) (fuel : nat) :
  forall st st' w w',
    while_loop fuel types st w = Some (Ok st', w') ->
    rateLimitStore w' = rateLimitStore w.
Proof.
  induction fuel as [|fuel IH]; intros st st' w w'; simpl.
  - destruct (loop_cond st); [discriminate|].
    intros H. injection H as _ <-. reflexivity.
  - destruct (loop_cond st); [|intros H; injection H as _ <-; reflexivity].
    destruct (loop_body types st w) as [[st1|e] w1] eqn:Hb; [|discriminate].
    intros H. rewrite (IH _ _ _ _ H). exact (loop_body_store _ _ _ _ _ Hb).
Qed.

Lemma search_groups_store (fuel : nat) (lat0 lng0 radiusMeters : R)
      (groups : list (list string)) :
  forall all tm w all' tm' w',
    search_groups fuel lat0 lng0 radiusMeters groups all tm w
    = Some (Ok (all', tm'), w') ->
    rateLimitStore w' = rateLimitStore w.
Proof.
  induction groups as [|types groups IH]; intros all tm w all' tm' w'; simpl.
  - intros H. injection H as _ _ <-. reflexivity.
  - unfold adaptiveTilingSearch, traverse.
    destruct (while_loop fuel types (initial lat0 lng0 radiusMeters) w)
      as [[[st|e] w1]|] eqn:Hw; try discriminate.
    intros H. rewrite (IH _ _ _ _ _ _ H).
    exact (while_loop_store _ _ _ _ _ _ Hw).
Qed.

(** Every request to the adaptive endpoint is counted by the rate limiter,
    whatever the answer: the store after the request is the store after the
    check, also for a request refused for its coordinates or for the missing
    credential. *)
Theorem every_request_is_counted (fuel : nat) (q : query) (w w' : world)
        (r : http_response) :
  handle_adaptive fuel q w = Some (r, w') ->
  rateLimitStore w' = rateLimitStore (snd (checkRateLimit "local" w))
  /\ exists data,
      JsMap.get (rateLimitStore w') "local" = Some data
      /\ (1 <= count data)%nat.
Proof.
  intros H.
  assert (Hstore : rateLimitStore w'
                   = rateLimitStore (snd (checkRateLimit "local" w))).
  { unfold handle_adaptive in H.
    destruct (checkRateLimit "local" w) as [[[|]|e] w1]; simpl;
      try (injection H as _ <-; reflexivity).
    destruct (negb (truthy (apiKey w1))); [injection H as _ <-; reflexivity|].
    destruct (q_latitude q) as [la|], (q_longitude q) as [lo|];
      try (injection H as _ <-; reflexivity).
    destruct (search_groups fuel la lo (q_radius q * 1000)
                            (typeGroups (q_type q)) [] (mkMetrics 0 0) w1)
      as [[[[all tm]|e] w2]|] eqn:Hs; try discriminate.
    - injection H as _ <-. exact (search_groups_store _ _ _ _ _ _ _ _ _ _ _ Hs).
    - exfalso.
      clear H. revert Hs. generalize (@nil seen_place), (mkMetrics 0 0), w1.
      induction (typeGroups (q_type q)) as [|types groups IH];
        intros all tm w0; simpl; [discriminate|].
      unfold adaptiveTilingSearch, traverse.
      destruct (while_loop fuel types (initial la lo (q_radius q * 1000)) w0)
        as [[[st|e0] w3]|] eqn:Hw; try discriminate.
      + apply IH.
      + clear IH. exfalso. revert Hw.
        generalize (initial la lo (q_radius q * 1000)), w0.
        induction fuel as [|fuel IHf]; intros st w4; simpl.
        * destruct (loop_cond st); discriminate.
        * destruct (loop_cond st); [|discriminate].
          destruct (loop_body_returns types st w4) as (st1 & w5 & -> & _).
          apply IHf. }
  split; [exact Hstore|]. rewrite Hstore. unfold checkRateLimit.
  destruct (JsMap.get (rateLimitStore w) "local") as [data|];
    [destruct (clock (env w) - windowStart data >? WINDOW_MS)%Z|];
    simpl; rewrite get_set_same; eexists; split; try reflexivity; simpl; lia.
Qed.

(** ** Formatting and ordering *)

(** Opening hours of seven lines are rotated by one, the last line (Sunday)
    coming first; any other number of lines is left alone.  No line is lost
    or added. *)
Theorem rotate_week_rotates (openingHours : list string) :
  Permutation openingHours (rotate_week openingHours)
  /\ (List.length openingHours = 7%nat ->
      forall d, rotate_week openingHours
                = last openingHours d :: removelast openingHours)
  /\ (List.length openingHours <> 7%nat ->
      rotate_week openingHours = openingHours).
Proof.
  unfold rotate_week.
  destruct (Nat.eqb_spec (List.length openingHours) 7) as [H7|H7].
  - destruct openingHours as [|a [|b [|c [|d [|e [|f [|g [|h l]]]]]]]];
      try discriminate.
    split; [|split; [reflexivity | congruence]].
    simpl. apply Permutation_sym.
    exact (Permutation_cons_append [a; b; c; d; e; f] g).
  - split; [reflexivity|]. split; [congruence | reflexivity].
Qed.

(** The comparator handed to the sort is a consistent comparison: swapping
    the arguments flips the sign, it is zero exactly on places equal on both
    keys, and "not after" is transitive. *)
Theorem compare_places_consistent (a b c : formatted_place) :
  compare_places b a = - compare_places a b
  /\ (compare_places a b = 0 <-> same_rank a b = true)
  /\ (compare_places a b <= 0 -> compare_places b c <= 0 ->
      compare_places a c <= 0).
Proof.
  split; [|split].
  - unfold compare_places.
    destruct (Reqb (f_rating a - f_rating b) 0) eqn:E1;
      [apply Reqb_true in E1 | apply Reqb_false in E1];
      (destruct (Reqb (f_rating b - f_rating a) 0) eqn:E2;
       [apply Reqb_true in E2 | apply Reqb_false in E2]).
    + lra.
    + exfalso. apply E2. lra.
    + exfalso. apply E1. lra.
    + lra.
  - unfold compare_places, same_rank.
    rewrite andb_true_iff, !Reqb_true.
    destruct (Reqb (f_rating b - f_rating a) 0) eqn:E;
      [apply Reqb_true in E | apply Reqb_false in E]; split.
    + intros H. split; lra.
    + intros [_ H]. lra.
    + intros H. contradiction.
    + intros [H _]. exfalso. apply E. lra.
  - rewrite !compare_places_before. apply ranks_before_trans.
Qed.

Lemma sort_insert_head (x : formatted_place) (l : list formatted_place) :
  Forall (ranks_before x) l -> sort_insert compare_places x l = x :: l.
Proof.
  destruct l as [|y l]; [reflexivity|].
  intros H. inversion H as [|? ? Hxy _]; subst.
  apply sort_insert_before, compare_places_before, Hxy.
Qed.

(** Sorting a list that is already in order returns it unchanged, so sorting
    twice is the same as sorting once. *)
Theorem array_sort_idempotent (l : list formatted_place) :
  (StronglySorted ranks_before l -> array_sort compare_places l = l)
  /\ array_sort compare_places (array_sort compare_places l)
     = array_sort compare_places l.
Proof.
  assert (Hfix : forall l0, StronglySorted ranks_before l0 ->
                            array_sort compare_places l0 = l0).
  { induction l0 as [|x l0 IH]; [reflexivity|].
    intros H. inversion H as [|? ? Hs Hx]; subst.
    cbn [array_sort fold_right]. fold (array_sort compare_places l0).
    rewrite (IH Hs). apply sort_insert_head, Hx. }
  split; [apply Hfix | apply Hfix, array_sort_sorted].
Qed.

(** ** The cost of a traversal by its radius *)

Lemma levels_weight_app (k : nat) (q1 q2 : list tile) :
  levels_weight k (q1 ++ q2) = (levels_weight k q1 + levels_weight k q2)%nat.
Proof.
  unfold levels_weight. induction q1 as [|t q1 IH]; simpl; [reflexivity|].
  rewrite IH. lia.
Qed.

Lemma within_levels_subdivide (k : nat) (t : tile) :
  within_levels k t ->
  radius t > MIN_RADIUS ->
  (depth t < k)%nat
  /\ Forall (within_levels k) (subdivide t)
  /\ (levels_weight k (subdivide t) + 1 = tree_size (k - depth t))%nat.
Proof.
  intros [Hd Hr] Hgt.
  assert (Hlt : (depth t < k)%nat).
  { destruct (Nat.eq_dec (depth t) k) as [E|E]; [|lia].
    rewrite E, Nat.sub_diag in Hr. simpl in Hr. lra. }
  assert (E : (k - depth t = S (k - (depth t + 1)))%nat) by lia.
  split; [exact Hlt|]. split.
  - apply Forall_forall. intros c Hin.
    apply subdivide_depth in Hin as [Hcd Hcr].
    split; [lia|]. rewrite Hcr, Hcd.
    rewrite E in Hr. simpl in Hr.
    replace (k - S (depth t))%nat with (k - (depth t + 1))%nat by lia. lra.
  - unfold levels_weight, subdivide, children. cbn [fold_right depth].
    rewrite E. cbn [tree_size]. lia.
Qed.

(** A traversal whose initial radius is at most [MIN_RADIUS * 2 ^ k] makes
    at most [tree_size k] calls: one for a radius up to [MIN_RADIUS], five up
    to twice that, twenty-one up to four times that. *)
Theorem calls_bounded_by_radius (k fuel : nat) (lat0 lng0 radiusMeters : R)
        (types : list string) (w : world) :
  (MAX_API_CALLS <= fuel)%nat ->
  radiusMeters <= MIN_RADIUS * 2 ^ k ->
  exists result w',
    adaptiveTilingSearch fuel lat0 lng0 radiusMeters types w
    = Some (Ok result, w')
    /\ (metrics_apiCalls (result_metrics result) <= tree_size k)%nat.
Proof.
  intros Hf Hr. unfold adaptiveTilingSearch, traverse.
  destruct (while_loop_total types fuel (initial lat0 lng0 radiusMeters) w)
    as (st' & w' & Hw & _); [cbn [initial apiCalls]; lia|].
  rewrite Hw. eexists. eexists. split; [reflexivity|].
  cbn [result_metrics metrics_apiCalls].
  apply while_loop_after_rounds in Hw.
  set (P := fun (st : locals) (_ : world) =>
              Forall (within_levels k) (queue st)
              /\ (levels_weight k (queue st) + apiCalls st <= tree_size k)%nat).
  enough (HP : P st' w') by (destruct HP as [_ HP]; lia).
  revert Hw. apply (after_rounds_invariant P).
  - intros st w0 st1 w1 [Hall Hwt] Hc Hb.
    apply loop_cond_true in Hc as [Hne _].
    destruct (queue st) as [|t rest] eqn:Hq; [congruence|].
    destruct (loop_body_returns types st w0) as (st2 & w2 & Hb2 & Hn & _).
    rewrite Hb in Hb2. injection Hb2 as <- <-.
    inversion Hall as [|? ? Ht Hrest]; subst.
    change (levels_weight k (t :: rest))
      with (tree_size (k - depth t) + levels_weight k rest)%nat in Hwt.
    pose proof (tree_size_pos (k - depth t)) as Hpos.
    unfold P. rewrite Hn.
    destruct (loop_body_queue types st st1 w0 w1 t rest Hq Hb)
      as [->|(-> & Hgt & _)].
    + split; [exact Hrest | lia].
    + destruct (within_levels_subdivide k t Ht Hgt) as (_ & Hch & Hsum).
      split; [apply Forall_app; auto|].
      rewrite levels_weight_app. lia.
  - split.
    + constructor; [|constructor]. split; simpl; [lia|].
      rewrite Nat.sub_0_r. exact Hr.
    + unfold levels_weight. simpl. rewrite Nat.sub_0_r. lia.
Qed.

(** ** Where the places come from *)

Lemma searchNearby_from_provider (la lo r : R) (types : list string)
      (w w1 : world) (places : list raw_place) :
  searchNearby la lo r types w = (Ok places, w1) ->
  places = []
  \/ exists req e',
      respond req (env w) = (Ok (RObject (Some places)), e').
Proof.
  unfold searchNearby, bind, httpsRequest.
  destruct (truthy (apiKey w)); [|discriminate].
  destruct (respond _ (env w)) as [[[|[l|]]|e] e'] eqn:Hr;
    unfold ret, throw; try discriminate.
  - intros H. injection H as <- _. right. eauto.
  - intros H. injection H as <- _. left. reflexivity.
Qed.

Lemma record_places_from (P : seen_place -> Prop) (places : list raw_place) :
  Forall (fun place => P (seen_entry place)) places ->
  forall seen,
    Forall (fun kv => P (snd kv)) seen ->
    Forall (fun kv => P (snd kv)) (record_places places seen).
Proof.
  unfold record_places.
  induction 1 as [|p places Hp _ IH]; intros seen Hs; simpl; [exact Hs|].
  apply IH. unfold record_place, JsMap.has.
  destruct (JsMap.get seen (id p)) eqn:Hg; simpl; [exact Hs|].
  rewrite (set_absent _ _ _ Hg). apply Forall_app. split; [exact Hs|].
  constructor; [exact Hp | constructor].
Qed.


End Server.

Arguments mkWorld {Env}.
Arguments apiKey {Env}.
Arguments rateLimitStore {Env}.
Arguments sent {Env}.
Arguments env {Env}.
Arguments checkRateLimit {Env}.
Arguments httpsRequest {Env}.
Arguments searchNearby {Env}.
Arguments loop_body {Env}.
Arguments while_loop {Env}.
Arguments traverse {Env}.
Arguments adaptiveTilingSearch {Env}.
Arguments search_groups {Env}.
Arguments handle_adaptive {Env}.
Arguments always_truncated {Env}.

(** * Concrete runs *)

(** C1 at the sample parent, with a full response. *)
Lemma parent_center_covered_witness :
  should_subdivide (repeat (stub_place "x" 5) 20) sample_parent = true
  /\ cos (lat sample_parent * PI / 180) <> 0
  /\ exists c, In c (subdivide sample_parent) /\ covers_center_of c sample_parent.
Proof.
  assert (H1 : should_subdivide (repeat (stub_place "x" 5) 20) sample_parent
               = true).
  { apply should_subdivide_true.
    unfold PROVIDER_CAPACITY, MIN_RADIUS, MAX_DEPTH. simpl.
    repeat split; [lia | lra | lia]. }
  assert (H2 : cos (lat sample_parent * PI / 180) <> 0)
    by (rewrite cos_sample_parent; lra).
  split; [exact H1|]. split; [exact H2|].
  exact (parent_center_covered _ _ H1 H2).
Defined.

(** C4 as stated fails at the sample parent: the first child center is not
    at distance [OVERLAP_FACTOR * childRadius] (700 m) but at about 990 m;
    and for the multiplier 0.8, which is at most 1, the parent center is
    outside the child disc. *)
Lemma child_distance_is_not_offset :
  ~ (forall c, In c (subdivide sample_parent) ->
               center_distance sample_parent c = OVERLAP_FACTOR * radius c)
  /\ 0.8 <= 1
  /\ ~ (forall c, In c (children 0.8 sample_parent) ->
                  covers_center_of c sample_parent).
Proof.
  assert (Hcos : cos (lat sample_parent * PI / 180) <> 0)
    by (rewrite cos_sample_parent; lra).
  pose proof sqrt2_bounds as Hsqrt.
  split; [|split; [lra|]].
  - intros H.
    assert (Hin : In (hd sample_parent (subdivide sample_parent))
                     (subdivide sample_parent)) by (left; reflexivity).
    specialize (H _ Hin).
    rewrite (child_distance OVERLAP_FACTOR _ _ Hcos Hin) in H.
    rewrite (child_radius OVERLAP_FACTOR _ _ Hin) in H.
    unfold OVERLAP_FACTOR in H. simpl in H.
    rewrite Rabs_pos_eq in H by lra. lra.
  - intros H.
    assert (Hin : In (hd sample_parent (children 0.8 sample_parent))
                     (children 0.8 sample_parent)) by (left; reflexivity).
    specialize (H _ Hin). unfold covers_center_of in H.
    rewrite (child_distance 0.8 _ _ Hcos Hin) in H.
    rewrite (child_radius 0.8 _ _ Hin) in H. simpl in H.
    rewrite Rabs_pos_eq in H by lra. lra.
Qed.

(** C4 as amended, at the sample parent with the multiplier of the source. *)
Lemma child_centers_at_diagonal_offset_witness :
  cos (lat sample_parent * PI / 180) <> 0
  /\ 0 <= OVERLAP_FACTOR
  /\ 0 < radius sample_parent
  /\ Forall (fun c =>
               center_distance sample_parent c
               = sqrt 2 * (OVERLAP_FACTOR * radius c)
               /\ covers_center_of c sample_parent)
            (subdivide sample_parent).
Proof.
  assert (H1 : cos (lat sample_parent * PI / 180) <> 0)
    by (rewrite cos_sample_parent; lra).
  assert (H2 : 0 <= OVERLAP_FACTOR) by (unfold OVERLAP_FACTOR; lra).
  assert (H3 : 0 < radius sample_parent) by (simpl; lra).
  repeat (split; [assumption|]).
  destruct (child_centers_at_diagonal_offset OVERLAP_FACTOR sample_parent
                                             H1 H2 H3) as (Hall & _ & Hle).
  eapply Forall_impl; [|exact Hall].
  intros c (_ & _ & Hd & Hcov). split; [exact Hd | apply Hcov, Hle].
Defined.

Lemma stub_full_truncated : always_truncated stub_full.
Proof.
  intros req e. exists (repeat (stub_place "x" 5) 20), e.
  split; [reflexivity | simpl; unfold PROVIDER_CAPACITY; lia].
Qed.

(** C2 on the end-to-end scenario of a 15 km disc against a provider that
    always answers twenty places: exactly [MAX_API_CALLS] calls, as many
    requests. *)
Lemma call_budget_respected_witness :
  (MAX_API_CALLS <= 200)%nat
  /\ exists st' w',
       traverse stub_full 200 32.0853 34.7818 15000 ["restaurant"]
                (mkWorld (Some "key") [] [] tt) = Some (Ok st', w')
       /\ apiCalls st' = MAX_API_CALLS
       /\ List.length (sent w') = 200%nat.
Proof.
  split; [unfold MAX_API_CALLS; lia|].
  destruct (call_budget_respected unit stub_full 200 32.0853 34.7818 15000
              ["restaurant"] (mkWorld (Some "key") [] [] tt))
    as (st' & w' & Ht & _ & _ & Hs & _ & Hfull);
    [unfold MAX_API_CALLS; lia|].
  assert (Hn : apiCalls st' = MAX_API_CALLS).
  { apply Hfull; [exact stub_full_truncated | reflexivity |].
    unfold MIN_RADIUS, MAX_DEPTH. simpl. lra. }
  exists st', w'. split; [exact Ht|]. split; [exact Hn|].
  rewrite (Hs eq_refl), Hn. reflexivity.
Defined.

(** C5 on the same scenario. *)
Lemma traversal_terminates_witness :
  (MAX_API_CALLS <= 200)%nat
  /\ exists st' w',
       traverse stub_full 200 32.0853 34.7818 15000 ["restaurant"]
                (mkWorld (Some "key") [] [] tt) = Some (Ok st', w')
       /\ (queue st' = [] \/ apiCalls st' = MAX_API_CALLS).
Proof.
  split; [unfold MAX_API_CALLS; lia|].
  destruct (traversal_terminates unit stub_full 200 32.0853 34.7818 15000
              ["restaurant"] (mkWorld (Some "key") [] [] tt))
    as (st' & w' & Ht & _ & _ & Hend); [unfold MAX_API_CALLS; lia|].
  exists st', w'. split; assumption.
Defined.

(** C3 as stated fails for an answer of twenty-one places: the sample parent
    is subdivided although the result count is not the capacity. *)
Lemma subdivision_above_capacity :
  exists st' w1,
    loop_body stub_over ["restaurant"] (mkLocals [sample_parent] 0 [])
              (mkWorld (Some "key") [] [] tt) = (Ok st', w1)
    /\ queue st' = [] ++ subdivide sample_parent
    /\ ~ (List.length (repeat (stub_place "x" 5) 21) = PROVIDER_CAPACITY
          /\ radius sample_parent > MIN_RADIUS
          /\ (depth sample_parent < MAX_DEPTH)%nat).
Proof.
  assert (Hsub : should_subdivide (repeat (stub_place "x" 5) 21) sample_parent
                 = true).
  { apply should_subdivide_true.
    unfold PROVIDER_CAPACITY, MIN_RADIUS, MAX_DEPTH. simpl.
    repeat split; [lia | lra | lia]. }
  eexists. eexists. split.
  - rewrite (loop_body_success unit stub_over ["restaurant"]
               (mkLocals [sample_parent] 0 [])
               (mkWorld (Some "key") [] [] tt)
               (mkWorld (Some "key") []
                        [mkRequest "key" ["restaurant"] 20 0 0 2000] tt)
               sample_parent [] (repeat (stub_place "x" 5) 21)
               eq_refl eq_refl).
    rewrite Hsub. reflexivity.
  - split; [reflexivity|]. intros [H _]. discriminate.
Qed.

(** C3 as amended, at the sample parent with a full response: four children
    of radius 1000 and depth 1 are enqueued. *)
Lemma subdivision_rule_witness :
  exists st',
    loop_body stub_full ["restaurant"] (mkLocals [sample_parent] 0 [])
              (mkWorld (Some "key") [] [] tt)
    = (Ok st',
       mkWorld (Some "key") []
               [mkRequest "key" ["restaurant"] 20 0 0 2000] tt)
    /\ queue st' = subdivide sample_parent
    /\ List.length (queue st') = 4%nat
    /\ Forall (fun c => radius c = 2000 / 2 /\ depth c = 1%nat) (queue st').
Proof.
  destruct (subdivision_rule unit stub_full ["restaurant"]
              (mkLocals [sample_parent] 0 [])
              (mkWorld (Some "key") [] [] tt)
              (mkWorld (Some "key") []
                       [mkRequest "key" ["restaurant"] 20 0 0 2000] tt)
              sample_parent [] (repeat (stub_place "x" 5) 20)
              eq_refl eq_refl)
    as (st' & Hb & Hiff & _ & Hlen & Hch & _).
  assert (Hq : queue st' = subdivide sample_parent).
  { apply Hiff. unfold PROVIDER_CAPACITY, MIN_RADIUS, MAX_DEPTH. simpl.
    repeat split; [lia | lra | lia]. }
  exists st'. split; [exact Hb|]. split; [exact Hq|].
  rewrite Hq. split; [exact Hlen | exact Hch].
Defined.

(** C7 with a provider that rejects every request. *)
Lemma provider_failure_is_zero_result_witness :
  loop_body stub_failing ["restaurant"] (mkLocals [sample_parent] 0 [])
            (mkWorld (Some "key") [] [] tt)
  = (Ok (mkLocals [] 1 []),
     mkWorld (Some "key") []
             [mkRequest "key" ["restaurant"] 20 0 0 2000] tt).
Proof.
  exact (proj1 (provider_failure_is_zero_result unit stub_failing
                  ["restaurant"] (mkLocals [sample_parent] 0 [])
                  (mkWorld (Some "key") [] [] tt)
                  (mkWorld (Some "key") []
                           [mkRequest "key" ["restaurant"] 20 0 0 2000] tt)
                  sample_parent [] "Request timeout" eq_refl eq_refl)).
Defined.

(** C6 with two queued tiles that both return the identity ["x"], rated 1
    by the first and 2 by the second: the one record kept is rated 1. *)
Lemma first_write_wins_witness :
  exists st' w' r,
    while_loop stub_echo MAX_API_CALLS ["restaurant"]
               (mkLocals [mkTile 1 0 100 0; mkTile 2 0 100 0] 0 [])
               (mkWorld (Some "key") [] [] tt) = Some (Ok st', w')
    /\ JsMap.get (seenPlaces st') "x" = Some r
    /\ p_rating r = 1
    /\ p_rating r <> 2
    /\ count_occ string_dec (JsMap.keys (seenPlaces st')) "x" = 1%nat
    /\ List.length (sent w') = 2%nat.
Proof.
  destruct (first_write_wins unit stub_echo ["restaurant"]
              (mkLocals [mkTile 1 0 100 0; mkTile 2 0 100 0] 0 [])
              (mkWorld (Some "key") [] [] tt)
              (mkWorld (Some "key") []
                       [mkRequest "key" ["restaurant"] 20 1 0 100] tt)
              (mkTile 1 0 100 0) [mkTile 2 0 100 0]
              [stub_place "x" 1] "x" (stub_place "x" 1)
              eq_refl eq_refl eq_refl (NoDup_nil string) eq_refl eq_refl)
    as (st' & w' & Hw & _ & Hc & _ & r & Hg & _ & _ & _ & _ & _ & Hr & _).
  simpl in Hr.
  exists st', w', r. split; [exact Hw|]. split; [exact Hg|].
  split; [exact Hr|]. split; [rewrite Hr; lra|]. split; [exact Hc|].
  assert (E : while_loop stub_echo MAX_API_CALLS ["restaurant"]
                (mkLocals [mkTile 1 0 100 0; mkTile 2 0 100 0] 0 [])
                (mkWorld (Some "key") [] [] tt)
              = Some (Ok (mkLocals [] 2 [("x", seen_entry (stub_place "x" 1))]),
                      mkWorld (Some "key") []
                              [mkRequest "key" ["restaurant"] 20 1 0 100;
                               mkRequest "key" ["restaurant"] 20 2 0 100] tt))
    by reflexivity.
  rewrite E in Hw. injection Hw as _ <-. reflexivity.
Defined.

(** The sort of three formatted places in merge order ["a"], ["b"], ["c"]:
    ["b"] is rated higher, ["a"] and ["c"] are equal on both keys. *)
Lemma sort_of_three_found :
  array_sort compare_places
             [sample_formatted "a" 4.6 200; sample_formatted "b" 4.9 150;
              sample_formatted "c" 4.6 200]
  = [sample_formatted "b" 4.9 150; sample_formatted "a" 4.6 200;
     sample_formatted "c" 4.6 200].
Proof.
  unfold array_sort. cbn [fold_right].
  change (sort_insert compare_places (sample_formatted "c" 4.6 200) [])
    with [sample_formatted "c" 4.6 200].
  rewrite (sort_insert_before compare_places (sample_formatted "b" 4.9 150))
    by (rewrite compare_places_by_rating; simpl; lra).
  rewrite (sort_insert_after compare_places (sample_formatted "a" 4.6 200))
    by (rewrite compare_places_by_rating; simpl; lra).
  rewrite (sort_insert_before compare_places (sample_formatted "a" 4.6 200))
    by (rewrite compare_places_by_reviews; simpl; lra).
  reflexivity.
Qed.

(** The thresholds 4.5 and 100 keep ["a"], ["b"] and ["c"] and drop ["d"]. *)
Lemma filter_of_four_found :
  filter (fun p => Rgeb (f_rating p) 4.5 && Rgeb (f_reviewCount p) 100)
         [sample_formatted "a" 4.6 200; sample_formatted "b" 4.9 150;
          sample_formatted "c" 4.6 200; sample_formatted "d" 3 10]
  = [sample_formatted "a" 4.6 200; sample_formatted "b" 4.9 150;
     sample_formatted "c" 4.6 200].
Proof.
  assert (K1 : Rgeb 4.6 4.5 = true) by (apply Rgeb_true; lra).
  assert (K2 : Rgeb 200 100 = true) by (apply Rgeb_true; lra).
  assert (K3 : Rgeb 4.9 4.5 = true) by (apply Rgeb_true; lra).
  assert (K4 : Rgeb 150 100 = true) by (apply Rgeb_true; lra).
  assert (K5 : Rgeb 3 4.5 = false).
  { destruct (Rgeb 3 4.5) eqn:E; [|reflexivity]. apply Rgeb_true in E. lra. }
  cbn [filter sample_formatted f_rating f_reviewCount].
  rewrite K1, K2, K3, K4, K5. reflexivity.
Qed.

(** A request for restaurants against the provider of five places: four are
    found, ["d"] is filtered out, and the list emitted is ["b"], ["a"],
    ["c"]. *)
Lemma five_places_request :
  exists w',
    handle_adaptive stub_five stub_clock stub_distance 200
                    (mkQuery (Some 32.0853) (Some 34.7818) 0.4 "restaurant"
                             4.5 100)
                    (mkWorld (Some "key") [] [] tt)
    = Some (mkResponse 200
              (SUCCESS
                 (mkSuccess (mkLatLng 32.0853 34.7818) 4 3
                            [sample_formatted "b" 4.9 150;
                             sample_formatted "a" 4.6 200;
                             sample_formatted "c" 4.6 200]
                            (mkMetrics 1 0))),
            w').
Proof.
  eexists.
  set (kept := filter (fun p => Rgeb (f_rating p) 4.5
                                && Rgeb (f_reviewCount p) 100)
                      [sample_formatted "a" 4.6 200;
                       sample_formatted "b" 4.9 150;
                       sample_formatted "c" 4.6 200;
                       sample_formatted "d" 3 10]).
  transitivity
    (Some (mkResponse 200
             (SUCCESS
                (mkSuccess (mkLatLng 32.0853 34.7818) 4
                           (List.length (array_sort compare_places kept))
                           (array_sort compare_places kept)
                           (mkMetrics 1 0))),
           mkWorld (Some "key") [("local", mkRate 1 0%Z)]
                   [mkRequest "key" ["restaurant"] 20 32.0853 34.7818
                              (0.4 * 1000)] tt)).
  - reflexivity.
  - unfold kept. rewrite filter_of_four_found, sort_of_three_found.
    reflexivity.
Qed.

(** C9 on that request: the emitted list is not empty, the better rated
    place comes first and the two places equal on both keys stand in the
    order in which they were found. *)
Lemma emitted_places_sorted_stably_witness :
  exists b w',
    handle_adaptive stub_five stub_clock stub_distance 200
                    (mkQuery (Some 32.0853) (Some 34.7818) 0.4 "restaurant"
                             4.5 100)
                    (mkWorld (Some "key") [] [] tt)
    = Some (mkResponse 200 (SUCCESS b), w')
    /\ body_places b = [sample_formatted "b" 4.9 150;
                        sample_formatted "a" 4.6 200;
                        sample_formatted "c" 4.6 200]
    /\ StronglySorted ranks_before (body_places b)
    /\ filter (same_rank (sample_formatted "a" 4.6 200)) (body_places b)
       = [sample_formatted "a" 4.6 200; sample_formatted "c" 4.6 200].
Proof.
  destruct five_places_request as [w' H].
  eexists. exists w'. split; [exact H|]. split; [reflexivity|].
  destruct (emitted_places_sorted_stably unit stub_five stub_clock
              stub_distance _ _ _ _ _ H)
    as (w1 & la & lo & allPlaces & totalMetrics
        & _ & _ & _ & _ & Hsorted & _ & _).
  split; [exact Hsorted|].
  cbn [body_places filter].
  assert (K1 : same_rank (sample_formatted "a" 4.6 200)
                         (sample_formatted "b" 4.9 150) = false).
  { unfold same_rank. simpl.
    destruct (Reqb 4.6 4.9) eqn:E; [|reflexivity].
    apply Reqb_true in E. lra. }
  assert (K2 : forall n, same_rank (sample_formatted "a" 4.6 200)
                                   (sample_formatted n 4.6 200) = true).
  { intros n. unfold same_rank. simpl.
    rewrite !(proj2 (Reqb_true _ _)) by reflexivity. reflexivity. }
  rewrite K1, !K2. reflexivity.
Defined.

(** C10 on a request whose two traversals both find the place ["x"]: one
    place found, [uniquePlaces] reported 0. *)
Lemma unique_places_metric_is_zero_witness :
  exists b w',
    handle_adaptive stub_echo stub_clock stub_distance 200
                    (mkQuery (Some 32.0853) (Some 34.7818) 0.4 "both" 4.5 100)
                    (mkWorld (Some "key") [] [] tt)
    = Some (mkResponse 200 (SUCCESS b), w')
    /\ body_totalFound b = 1%nat
    /\ metrics_uniquePlaces (body_metrics b) = 0%nat.
Proof.
  eexists. eexists.
  match goal with
  | |- ?lhs = ?rhs /\ _ => assert (H : lhs = rhs) by reflexivity
  end.
  split; [exact H|]. split; [reflexivity|].
  exact (unique_places_metric_is_zero unit stub_echo stub_clock stub_distance
                                      _ _ _ _ _ H).
Defined.

(** Each traversal of that request does count its one unique place. *)
Lemma traversal_counts_unique_places :
  exists result w',
    adaptiveTilingSearch stub_echo 200 32.0853 34.7818 400 ["restaurant"]
                         (mkWorld (Some "key") [] [] tt)
    = Some (Ok result, w')
    /\ metrics_uniquePlaces (result_metrics result) = 1%nat.
Proof. eexists. eexists. split; reflexivity. Qed.

(** C8: a request with a negative radius, and one with radius zero, is not
    turned down: the traversal is run, a provider request goes out and a call
    is counted. *)
Lemma nonpositive_radius_is_searched :
  (exists b w',
      handle_adaptive stub_empty stub_clock stub_distance 200
                      (mkQuery (Some 32.0853) (Some 34.7818) (-5)
                               "restaurant" 4.5 100)
                      (mkWorld (Some "key") [] [] tt)
      = Some (mkResponse 200 (SUCCESS b), w')
      /\ metrics_apiCalls (body_metrics b) = 1%nat
      /\ sent w' = [mkRequest "key" ["restaurant"] 20 32.0853 34.7818
                              (-5 * 1000)])
  /\ (exists b w',
         handle_adaptive stub_empty stub_clock stub_distance 200
                         (mkQuery (Some 32.0853) (Some 34.7818) 0
                                  "restaurant" 4.5 100)
                         (mkWorld (Some "key") [] [] tt)
         = Some (mkResponse 200 (SUCCESS b), w')
         /\ metrics_apiCalls (body_metrics b) = 1%nat
         /\ sent w' = [mkRequest "key" ["restaurant"] 20 32.0853 34.7818
                                 (0 * 1000)]).
Proof.
  split; eexists; eexists; repeat split; reflexivity.
Qed.

Arguments after_rounds {Env}.
Arguments at_env {Env}.
Arguments checks_in_turn {Env}.
Arguments window_over {Env}.
Arguments from_provider {Env}.

(** * Further concrete runs *)

(** One round against the provider that always answers twenty places, from
    the sample parent: the four children are queued. *)
Lemma first_round_of_sample :
  after_rounds stub_full 1 ["restaurant"] (initial 0 0 2000)
               (mkWorld (Some "key") [] [] tt)
  = Some (mkLocals (subdivide sample_parent) 1
                   (record_places (repeat (stub_place "x" 5) 20) []),
          mkWorld (Some "key") []
                  [mkRequest "key" ["restaurant"] 20 0 0 2000] tt).
Proof.
  assert (Hsub : should_subdivide (repeat (stub_place "x" 5) 20) sample_parent
                 = true).
  { apply should_subdivide_true.
    unfold PROVIDER_CAPACITY, MIN_RADIUS, MAX_DEPTH. simpl.
    repeat split; [lia | lra | lia]. }
  cbn [after_rounds].
  change (loop_cond (initial 0 0 2000)) with true. cbv iota.
  rewrite (loop_body_success unit stub_full ["restaurant"] (initial 0 0 2000)
             (mkWorld (Some "key") [] [] tt)
             (mkWorld (Some "key") []
                      [mkRequest "key" ["restaurant"] 20 0 0 2000] tt)
             sample_parent [] (repeat (stub_place "x" 5) 20)
             eq_refl eq_refl).
  rewrite Hsub. reflexivity.
Qed.

Lemma queued_tiles_halve_radius_witness :
  Forall (tile_of_traversal 2000) (subdivide sample_parent).
Proof.
  exact (queued_tiles_halve_radius unit stub_full 1 0 0 2000 ["restaurant"]
           _ _ _ first_round_of_sample).
Defined.

Lemma queue_is_level_ordered_witness :
  level_ordered (subdivide sample_parent)
  /\ StronglySorted (fun a b => (depth a <= depth b)%nat)
                    (subdivide sample_parent).
Proof.
  exact (queue_is_level_ordered unit stub_full 1 0 0 2000 ["restaurant"]
           _ _ _ first_round_of_sample).
Defined.

Lemma requests_of_a_traversal_witness :
  Forall (request_of_traversal "key" ["restaurant"] 2000)
         [mkRequest "key" ["restaurant"] 20 0 0 2000].
Proof.
  destruct (requests_of_a_traversal unit stub_full 1 0 0 2000 ["restaurant"]
              _ _ _ first_round_of_sample)
    as (_ & _ & new & Hs & _ & _ & Hall).
  simpl in Hs. rewrite Hs. exact Hall.
Defined.

(** A traversal against the provider of five places, two of them with the
    identity ["a"]: four places are returned, with distinct identities. *)
Lemma adaptiveTilingSearch_result_witness :
  (MAX_API_CALLS <= 200)%nat
  /\ exists result w',
       adaptiveTilingSearch stub_five 200 32.0853 34.7818 15000
                            ["restaurant"] (mkWorld (Some "key") [] [] tt)
       = Some (Ok result, w')
       /\ map p_id (result_places result) = ["a"; "b"; "c"; "d"]
       /\ NoDup (map p_id (result_places result))
       /\ Forall (fun p => p_name p <> "") (result_places result)
       /\ metrics_uniquePlaces (result_metrics result) = 4%nat
       /\ metrics_apiCalls (result_metrics result) = 1%nat.
Proof.
  split; [unfold MAX_API_CALLS; lia|].
  destruct (adaptiveTilingSearch_result unit stub_five 200 32.0853 34.7818
              15000 ["restaurant"] (mkWorld (Some "key") [] [] tt))
    as (result & w' & H & Hnd & Hname & Hu & _); [unfold MAX_API_CALLS; lia|].
  exists result, w'. split; [exact H|].
  assert (E : adaptiveTilingSearch stub_five 200 32.0853 34.7818 15000
                ["restaurant"] (mkWorld (Some "key") [] [] tt)
              = Some (Ok (mkResult
                            (map seen_entry
                                 [rated_place "a" 4.6 200;
                                  rated_place "b" 4.9 150;
                                  rated_place "c" 4.6 200;
                                  rated_place "d" 3 10])
                            (mkMetrics 1 4)),
                      mkWorld (Some "key") []
                              [mkRequest "key" ["restaurant"] 20
                                         32.0853 34.7818 15000] tt))
    by reflexivity.
  rewrite E in H. injection H as <- _.
  split; [reflexivity|]. split; [exact Hnd|]. split; [exact Hname|].
  split; reflexivity.
Defined.

Lemma single_call_traversal_witness :
  (1 <= 200)%nat
  /\ 400 <= MIN_RADIUS
  /\ exists result w',
       adaptiveTilingSearch stub_full 200 32.0853 34.7818 400 ["restaurant"]
                            (mkWorld (Some "key") [] [] tt)
       = Some (Ok result, w')
       /\ metrics_apiCalls (result_metrics result) = 1%nat.
Proof.
  assert (H1 : (1 <= 200)%nat) by lia.
  assert (H2 : 400 <= MIN_RADIUS) by (unfold MIN_RADIUS; lra).
  split; [exact H1|]. split; [exact H2|].
  destruct (single_call_traversal unit stub_full 200 32.0853 34.7818 400
              ["restaurant"] (mkWorld (Some "key") [] [] tt) H1
              (or_introl H2))
    as (result & w' & H & Hn & _).
  exists result, w'. auto.
Defined.

Lemma no_credential_no_request_witness :
  adaptiveTilingSearch stub_full 200 32.0853 34.7818 15000 ["restaurant"]
                       (mkWorld None [] [] tt)
  = Some (Ok (mkResult [] (mkMetrics 1 0)), mkWorld None [] [] tt).
Proof.
  apply (no_credential_no_request unit stub_full 200); [lia | reflexivity].
Defined.


Lemma api_calls_metric_counts_requests_witness :
  exists b w',
    handle_adaptive stub_echo stub_clock stub_distance 200
                    (mkQuery (Some 32.0853) (Some 34.7818) 0.4 "both" 4.5 100)
                    (mkWorld (Some "key") [] [] tt)
    = Some (mkResponse 200 (SUCCESS b), w')
    /\ List.length (sent w') = (0 + metrics_apiCalls (body_metrics b))%nat.
Proof.
  eexists. eexists.
  match goal with
  | |- ?lhs = ?rhs /\ _ => assert (H : lhs = rhs) by reflexivity
  end.
  split; [exact H|].
  assert (Hf : (MAX_API_CALLS <= 200)%nat) by (unfold MAX_API_CALLS; lia).
  exact (proj1 (api_calls_metric_counts_requests unit stub_echo stub_clock
                  stub_distance 200 _ _ _ _ Hf H)).
Defined.

(** On the request against the provider of five places: four places found,
    three emitted, each above both thresholds, with distinct identities. *)
Lemma emitted_places_pass_filters_witness :
  exists b w',
    handle_adaptive stub_five stub_clock stub_distance 200
                    (mkQuery (Some 32.0853) (Some 34.7818) 0.4 "restaurant"
                             4.5 100)
                    (mkWorld (Some "key") [] [] tt)
    = Some (mkResponse 200 (SUCCESS b), w')
    /\ map f_placeId (body_places b) = ["b"; "a"; "c"]
    /\ body_totalFound b = 4%nat
    /\ body_afterFilters b = 3%nat
    /\ Forall (fun p => f_rating p >= 4.5 /\ f_reviewCount p >= 100)
              (body_places b)
    /\ NoDup (map f_placeId (body_places b)).
Proof.
  destruct five_places_request as [w' H].
  eexists. exists w'. split; [exact H|].
  destruct (emitted_places_pass_filters unit stub_five stub_clock
              stub_distance _ _ _ _ _ H) as (Hall & Hnd & _ & _).
  split; [reflexivity|]. split; [reflexivity|]. split; [reflexivity|].
  split; [exact Hall | exact Hnd].
Defined.

(** A hundred and one requests of one client at the same instant, on a clock
    that reads the environment itself: the last one is refused. *)
Lemma rate_limit_per_window_witness :
  window_over (fun z : Z => z) "local" 0%Z (mkWorld None [] [] 0%Z)
  /\ Forall (fun e : Z => (e - 0 <= WINDOW_MS)%Z) (repeat 0%Z 100)
  /\ nth 99 (fst (checks_in_turn (fun z : Z => z) "local"
                                 (0%Z :: repeat 0%Z 100)
                                 (mkWorld None [] [] 0%Z))) (Throw "")
     = Ok true
  /\ nth 100 (fst (checks_in_turn (fun z : Z => z) "local"
                                  (0%Z :: repeat 0%Z 100)
                                  (mkWorld None [] [] 0%Z))) (Throw "")
     = Ok false.
Proof.
  assert (H1 : window_over (fun z : Z => z) "local" 0%Z
                           (mkWorld None [] [] 0%Z)) by exact I.
  assert (H2 : Forall (fun e : Z => (e - 0 <= WINDOW_MS)%Z) (repeat 0%Z 100)).
  { apply Forall_forall. intros e Hin. apply repeat_spec in Hin. subst.
    unfold WINDOW_MS. lia. }
  split; [exact H1|]. split; [exact H2|].
  rewrite (proj1 (rate_limit_per_window Z (fun z : Z => z) "local" 0%Z
                    (repeat 0%Z 100) (mkWorld None [] [] 0%Z) H1 H2)).
  split; reflexivity.
Defined.

Lemma checkRateLimit_isolated_witness :
  "local" <> "other"
  /\ JsMap.get (rateLimitStore
                  (snd (checkRateLimit stub_clock "local"
                          (mkWorld None [("other", mkRate 7 0%Z)] [] tt))))
               "other"
     = Some (mkRate 7 0%Z).
Proof.
  assert (H : "local" <> "other") by discriminate.
  split; [exact H|].
  exact (proj1 (checkRateLimit_isolated unit stub_clock "local" "other"
                  (mkWorld None [("other", mkRate 7 0%Z)] [] tt) H)).
Defined.

Lemma every_request_is_counted_witness :
  exists data,
    JsMap.get (rateLimitStore
                 (mkWorld (@None string) [("local", mkRate 1 0%Z)] [] tt))
              "local" = Some data
    /\ (1 <= count data)%nat.
Proof.
  exact (proj2 (every_request_is_counted unit stub_empty stub_clock
                  stub_distance 200
                  (mkQuery None None 15 "both" 4.5 100)
                  (mkWorld None [] [] tt)
                  (mkWorld None [("local", mkRate 1 0%Z)] [] tt)
                  (mkResponse 400 API_KEY_NOT_SET) eq_refl)).
Defined.

Lemma calls_bounded_by_radius_witness :
  (MAX_API_CALLS <= 200)%nat
  /\ 1000 <= MIN_RADIUS * 2 ^ 1
  /\ exists result w',
       adaptiveTilingSearch stub_full 200 32.0853 34.7818 1000 ["restaurant"]
                            (mkWorld (Some "key") [] [] tt)
       = Some (Ok result, w')
       /\ (metrics_apiCalls (result_metrics result) <= 5)%nat.
Proof.
  assert (H1 : (MAX_API_CALLS <= 200)%nat) by (unfold MAX_API_CALLS; lia).
  assert (H2 : 1000 <= MIN_RADIUS * 2 ^ 1) by (unfold MIN_RADIUS; simpl; lra).
  split; [exact H1|]. split; [exact H2|].
  exact (calls_bounded_by_radius unit stub_full 1 200 32.0853 34.7818 1000
           ["restaurant"] (mkWorld (Some "key") [] [] tt) H1 H2).
Defined.

